(** * qs-state-hook: a shallow embedding of [src/qs-state-hook.ts]

    The hook keeps one reactive value per query-string key in sync with
    the URL.  The development follows the layers of the source:

    - [Js]: the JavaScript values the hook manipulates, strict equality,
      truthiness, plain objects with their own-property order, object
      spread and [JSON.stringify];
    - [Qs]: the fragment of the [qs] codec the hook calls
      ([qs.parse] with [ignoreQueryPrefix], [qs.stringify] with
      [skipNulls]);
    - the module-level [commitQueue], the debounced [commit] and
      [storeInURL] of [useQsStateCreator];
    - [useQsState]: [validator], [getValueFromURL], [setValue] and the
      reconciliation effect;
    - [Legacy]: the places where the older JavaScript source differs. *)

From Stdlib Require Import ZArith String Ascii List Bool Lia DecimalString.
From Stdlib Require DecimalZ DecimalPos.
From stdpp Require Import base list strings.
Import ListNotations.

Set Warnings "-register-all".

Open Scope string_scope.
Open Scope list_scope.

(** ** JavaScript values *)

Module Js.

(** Numbers are the integers a double holds exactly and prints in plain
    decimal; arrays, objects and functions carry the reference [ref]
    that [===] compares.  Of a function only its identity is kept. *)
Inductive value : Type :=
| VUndefined
| VNull
| VBool (b : bool)
| VNum (n : Z)
| VStr (s : string)
| VArr (ref : nat) (items : list value)
| VObj (ref : nat) (props : list (string * value))
| VFun (ref : nat).

(** A plain object used as a mapping ([parsedQS], [commitQueue],
    [qsObject]): its own properties in enumeration order. *)
Definition jsobj : Type := list (string * value).

(** [a === b] *)
Definition strict_eq (a b : value) : bool :=
  match a, b with
  | VUndefined, VUndefined => true
  | VNull, VNull => true
  | VBool x, VBool y => Bool.eqb x y
  | VNum x, VNum y => Z.eqb x y
  | VStr x, VStr y => String.eqb x y
  | VArr r _, VArr r' _ => Nat.eqb r r'
  | VObj r _, VObj r' _ => Nat.eqb r r'
  | VFun r, VFun r' => Nat.eqb r r'
  | _, _ => false
  end.

(** [!!v] *)
Definition truthy (v : value) : bool :=
  match v with
  | VUndefined | VNull => false
  | VBool b => b
  | VNum n => negb (Z.eqb n 0)
  | VStr s => negb (String.eqb s "")
  | VArr _ _ | VObj _ _ | VFun _ => true
  end.

(** [arr.indexOf(v) !== -1] *)
Definition includes (arr : list value) (v : value) : bool :=
  existsb (fun x => strict_eq x v) arr.

(** [String(n)] for an integer-valued number. *)
Definition string_of_Z (n : Z) : string :=
  NilZero.string_of_int (Z.to_int n).

Fixpoint join (sep : string) (l : list string) : string :=
  match l with
  | [] => ""
  | [s] => s
  | s :: rest => s +:+ sep +:+ join sep rest
  end.

(** *** JSON.stringify *)

Definition hex_lower (n : N) : ascii :=
  if (n <? 10)%N then ascii_of_N (48 + n) else ascii_of_N (87 + n).

(** QuoteJSONString, one code unit at a time. *)
Definition json_escape_char (c : ascii) : string :=
  let n := N_of_ascii c in
  if (n =? 8)%N then "\b"
  else if (n =? 9)%N then "\t"
  else if (n =? 10)%N then "\n"
  else if (n =? 12)%N then "\f"
  else if (n =? 13)%N then "\r"
  else if (n =? 34)%N then String "\" (String c "")
  else if (n =? 92)%N then "\\"
  else if (n <? 32)%N then
    "\u00" +:+ String (hex_lower (n / 16)) (String (hex_lower (n mod 16)) "")
  else String c "".

Fixpoint json_escape (s : string) : string :=
  match s with
  | EmptyString => ""
  | String c rest => json_escape_char c +:+ json_escape rest
  end.

Definition dquote : ascii := ascii_of_N 34.

Definition json_quote (s : string) : string :=
  String dquote (json_escape s +:+ String dquote "").

(** [JSON.stringify(v)]; [None] is JavaScript's [undefined].  An
    [undefined] or a function is [null] inside an array and drops its
    property inside an object. *)
Fixpoint JSON_stringify (v : value) : option string :=
  match v with
  | VUndefined => None
  | VFun _ => None
  | VNull => Some "null"
  | VBool b => Some (if b then "true" else "false")
  | VNum n => Some (string_of_Z n)
  | VStr s => Some (json_quote s)
  | VArr _ items =>
      Some ("[" +:+
            join "," (map (fun e => match JSON_stringify e with
                                    | Some s => s
                                    | None => "null"
                                    end) items) +:+ "]")
  | VObj _ props =>
      Some ("{" +:+
            join "," (flat_map (fun p => match JSON_stringify (snd p) with
                                         | Some s => [json_quote (fst p) +:+ ":" +:+ s]
                                         | None => []
                                         end) props) +:+ "}")
  end.

(** *** Plain objects

    Own properties are enumerated with the array-index keys first, in
    ascending numeric order, and then the other string keys in the order
    they were created ([OrdinaryOwnPropertyKeys]); [Object.keys], object
    spread and [qs.stringify] all see that order.  A property read
    [o[k]] follows the prototype chain: a key that is not an own
    property reads the member of [Object.prototype] of that name, if
    there is one. *)

(** The array index a key denotes: a canonical decimal numeral below
    [2^32 - 1]. *)
Definition array_index (k : string) : option N :=
  match NilZero.uint_of_string k with
  | Some d =>
      let n := N.of_uint d in
      if String.eqb (NilZero.string_of_uint (N.to_uint n)) k
         && (n <? 4294967295)%N
      then Some n else None
  | None => None
  end.

(** Own-property lookup; [None] when [k] is not an own property. *)
Fixpoint obj_get (o : jsobj) (k : string) : option value :=
  match o with
  | [] => None
  | (k', v) :: rest => if String.eqb k' k then Some v else obj_get rest k
  end.

(** [Object.prototype], which every plain object inherits from: its
    methods, each a function of its own identity (the function
    references [0] to [10] are theirs), and the accessor [__proto__],
    which reads as [Object.prototype] itself, an object without
    enumerable properties. *)
Definition Object_prototype : jsobj :=
  [("constructor", VFun 0); ("__defineGetter__", VFun 1);
   ("__defineSetter__", VFun 2); ("hasOwnProperty", VFun 3);
   ("__lookupGetter__", VFun 4); ("__lookupSetter__", VFun 5);
   ("isPrototypeOf", VFun 6); ("propertyIsEnumerable", VFun 7);
   ("toString", VFun 8); ("valueOf", VFun 9); ("__proto__", VObj 0 []);
   ("toLocaleString", VFun 10)].

(** [o[k]] on a plain object: the own property, else the inherited
    member, else [undefined]. *)
Definition get (o : jsobj) (k : string) : value :=
  match obj_get o k with
  | Some v => v
  | None => match obj_get Object_prototype k with
            | Some m => m
            | None => VUndefined
            end
  end.

(** [Object.keys(o)] *)
Definition keys (o : jsobj) : list string := map fst o.

Definition has (o : jsobj) (k : string) : bool :=
  existsb (String.eqb k) (keys o).

(** Assignment to an existing own property keeps its position. *)
Fixpoint obj_replace (k : string) (v : value) (o : jsobj) : jsobj :=
  match o with
  | [] => []
  | (k', v') :: rest =>
      if String.eqb k' k then (k', v) :: rest
      else (k', v') :: obj_replace k v rest
  end.

(** A new array-index key goes after the smaller index keys. *)
Fixpoint obj_insert_index (n : N) (k : string) (v : value) (o : jsobj)
  : jsobj :=
  match o with
  | [] => [(k, v)]
  | (k', v') :: rest =>
      match array_index k' with
      | Some n' =>
          if (n' <? n)%N then (k', v') :: obj_insert_index n k v rest
          else (k, v) :: o
      | None => (k, v) :: o
      end
  end.

(** [o[k] = v] (also a computed property [[k]: v] in a literal). *)
Definition obj_set (k : string) (v : value) (o : jsobj) : jsobj :=
  if has o k then obj_replace k v o
  else match array_index k with
       | Some n => obj_insert_index n k v o
       | None => o ++ [(k, v)]
       end.

(** [{ ...target, ...src }] continues the literal [target] with the own
    properties of [src], in their enumeration order. *)
Definition obj_spread (target src : jsobj) : jsobj :=
  fold_left (fun acc p => obj_set (fst p) (snd p) acc) src target.

(** [k1] may be enumerated before [k2]. *)
Definition key_before (k1 k2 : string) : Prop :=
  match array_index k2 with
  | Some n2 => match array_index k1 with
               | Some n1 => (n1 < n2)%N
               | None => False
               end
  | None => True
  end.

(** The objects JavaScript can build: no key twice, keys in enumeration
    order. *)
Definition wf_obj (o : jsobj) : Prop :=
  NoDup (keys o) /\ ForallOrdPairs key_before (keys o).

End Js.
Import Js.

(** ** The query-string codec

    What the hook asks of the [qs] package, on flat query strings:
    [qs.parse(str, { ignoreQueryPrefix: true })] and
    [qs.stringify(obj, { skipNulls: true })] with the package's other
    options at their defaults.  Keys written with brackets ([a[b]=c]),
    which [qs.parse] expands into nested objects, are outside the
    fragment and are read here as flat keys.  Strings are sequences of
    UTF-8 bytes; percent-decoding assumes the decoded bytes are
    well-formed UTF-8. *)

Module Qs.

(** The characters [utils.encode] leaves alone (RFC 3986). *)
Definition unreserved (c : ascii) : bool :=
  let n := N_of_ascii c in
  (n =? 45)%N || (n =? 46)%N || (n =? 95)%N || (n =? 126)%N
  || ((48 <=? n)%N && (n <=? 57)%N)
  || ((65 <=? n)%N && (n <=? 90)%N)
  || ((97 <=? n)%N && (n <=? 122)%N).

Definition hex_upper (n : N) : ascii :=
  if (n <? 10)%N then ascii_of_N (48 + n) else ascii_of_N (55 + n).

Definition encode_char (c : ascii) : string :=
  if unreserved c then String c ""
  else let n := N_of_ascii c in
       String "%" (String (hex_upper (n / 16)) (String (hex_upper (n mod 16)) "")).

Fixpoint encode (s : string) : string :=
  match s with
  | EmptyString => ""
  | String c rest => encode_char c +:+ encode rest
  end.

Definition is_null (v : value) : bool :=
  match v with VNull => true | _ => false end.

Definition string_of_nat (i : nat) : string :=
  NilZero.string_of_uint (Nat.to_uint i).

Definition pair_string (prefix s : string) : string :=
  encode prefix +:+ "=" +:+ encode s.

(** The inner [stringify]: the [key=value] pairs a value contributes
    under [prefix].  Arrays use the [indices] format. *)
Fixpoint stringify_value (prefix : string) (v : value) : list string :=
  match v with
  | VNull => [pair_string prefix ""]
  | VBool b => [pair_string prefix (if b then "true" else "false")]
  | VNum n => [pair_string prefix (string_of_Z n)]
  | VStr s => [pair_string prefix s]
  | VUndefined => []
  | VFun _ => []
  | VArr _ items =>
      (fix each (i : nat) (l : list value) : list string :=
         match l with
         | [] => []
         | e :: rest =>
             (if is_null e then []
              else stringify_value (prefix +:+ "[" +:+ string_of_nat i +:+ "]") e)
             ++ each (S i) rest
         end) 0%nat items
  | VObj _ props =>
      (fix each (l : list (string * value)) : list string :=
         match l with
         | [] => []
         | p :: rest =>
             (if is_null (snd p) then []
              else stringify_value (prefix +:+ "[" +:+ fst p +:+ "]") (snd p))
             ++ each rest
         end) props
  end.

(** The pairs of the top-level loop: a [null] property is skipped. *)
Definition stringify_pairs (o : jsobj) : list string :=
  flat_map (fun p => if is_null (snd p) then []
                     else stringify_value (fst p) (snd p)) o.

(** [qs.stringify(o, { skipNulls: true })] *)
Definition stringify (o : jsobj) : string :=
  join "&" (stringify_pairs o).

(** The keys that contribute at least one pair to [stringify o]. *)
Definition encoded_keys (o : jsobj) : list string :=
  flat_map (fun p => if is_null (snd p) then []
                     else match stringify_value (fst p) (snd p) with
                          | [] => []
                          | _ :: _ => [fst p]
                          end) o.

Definition strip_query_prefix (s : string) : string :=
  match s with
  | String c rest => if Ascii.eqb c "?" then rest else s
  | EmptyString => s
  end.

(** [s.split(sep)] *)
Fixpoint split_on (sep : ascii) (s : string) : list string :=
  match s with
  | EmptyString => [""]
  | String c rest =>
      if Ascii.eqb c sep then "" :: split_on sep rest
      else match split_on sep rest with
           | h :: t => String c h :: t
           | [] => [String c ""]
           end
  end.

Fixpoint plus_to_space (s : string) : string :=
  match s with
  | EmptyString => ""
  | String c rest =>
      String (if Ascii.eqb c "+" then " "%char else c) (plus_to_space rest)
  end.

Definition hex_val (c : ascii) : option N :=
  let n := N_of_ascii c in
  if ((48 <=? n)%N && (n <=? 57)%N) then Some (n - 48)%N
  else if ((65 <=? n)%N && (n <=? 70)%N) then Some (n - 55)%N
  else if ((97 <=? n)%N && (n <=? 102)%N) then Some (n - 87)%N
  else None.

(** [decodeURIComponent]; [None] when it throws. *)
Fixpoint percent_decode (s : string) : option string :=
  match s with
  | EmptyString => Some ""
  | String c rest =>
      if Ascii.eqb c "%" then
        match rest with
        | String h (String l rest') =>
            match hex_val h, hex_val l, percent_decode rest' with
            | Some a, Some b, Some d => Some (String (ascii_of_N (16 * a + b)) d)
            | _, _, _ => None
            end
        | _ => None
        end
      else option_map (String c) (percent_decode rest)
  end.

(** [utils.decode] *)
Definition decode (s : string) : string :=
  let s' := plus_to_space s in
  match percent_decode s' with
  | Some d => d
  | None => s'
  end.

Definition parse_part (part : string) : string * string :=
  let pos := match index 0 "]=" part with
             | Some i => Some (S i)
             | None => index 0 "=" part
             end in
  match pos with
  | None => (decode part, "")
  | Some p =>
      (decode (substring 0 p part),
       decode (substring (S p) (String.length part - S p) part))
  end.

(** [utils.combine]: a repeated key collects its values in an array.
    The array is a new one at each call; nothing is allocated here, so
    it carries the reference [0] and the identity of the arrays read
    from a location is not tracked. *)
Definition combine (old new : value) : value :=
  match old with
  | VArr _ items => VArr 0 (items ++ [new])
  | _ => VArr 0 [old; new]
  end.

Definition parameterLimit : nat := 1000.

(** [parseValues] *)
Definition parse_values (str : string) : jsobj :=
  fold_left
    (fun obj part =>
       let kv := parse_part part in
       match obj_get obj (fst kv) with
       | Some old => obj_set (fst kv) (combine old (VStr (snd kv))) obj
       | None => obj_set (fst kv) (VStr (snd kv)) obj
       end)
    (firstn parameterLimit (split_on "&" (strip_query_prefix str))) [].

(** The names [parseKeys] refuses because they would shadow a member
    of [Object.prototype]. *)
Definition prototype_keys : list string :=
  ["constructor"; "__defineGetter__"; "__defineSetter__"; "hasOwnProperty";
   "__lookupGetter__"; "__lookupSetter__"; "isPrototypeOf";
   "propertyIsEnumerable"; "toString"; "valueOf"; "__proto__";
   "toLocaleString"].

Definition accepted_key (k : string) : bool :=
  negb (String.eqb k "") && negb (existsb (String.eqb k) prototype_keys).

(** [qs.parse(str, { ignoreQueryPrefix: true })] *)
Definition parse (str : string) : jsobj :=
  fold_left
    (fun obj p => if accepted_key (fst p) then obj_set (fst p) (snd p) obj
                  else obj)
    (parse_values str) [].

End Qs.

(** ** The hook's value equality *)

(** [isEqualObj(a, b)]: compares two values using JSON
    stringification. *)
Definition isEqualObj (a b : value) : bool :=
  if strict_eq a b then true
  else match JSON_stringify a, JSON_stringify b with
       | Some x, Some y => String.eqb x y
       | None, None => true
       | _, _ => false
       end.

(** ** The commit queue and the debounced committer *)

Definition COMMIT_DELAY : nat := 100.

(** One call of [useQsStateCreator]: the search string of
    [location.current], the debounce timer of its [commit] (the time
    left before the trailing call, [None] when idle) and the [search]
    arguments [commitToLocation] has received so far, oldest first. *)
Record scope : Type := mkScope {
  location : string;
  timer : option nat;
  committed : list string
}.

(** The module: the single [commitQueue] and the scopes created so
    far. *)
Record world : Type := mkWorld {
  commitQueue : jsobj;
  scopes : list scope
}.

Definition initial_world : world := mkWorld [] [].

Definition new_scope (search : string) : scope := mkScope search None [].

(** [useQsStateCreator({ commit, location })], first call in a
    component: the scope is numbered by its position. *)
Definition useQsStateCreator (search : string) (w : world) : nat * world :=
  (length (scopes w), mkWorld (commitQueue w) (scopes w ++ [new_scope search])).

(** [{ ...parsedQS, ...commitQueue }] *)
Definition qsObject (search : string) (queue : jsobj) : jsobj :=
  obj_spread (obj_spread [] (Qs.parse search)) queue.

(** The body of the debounced [commit]. *)
Definition commit (queue : jsobj) (sc : scope) : jsobj * scope :=
  let search := Qs.stringify (qsObject (location sc) queue) in
  ([], mkScope (location sc) None (committed sc ++ [search])).

(** Calling the debounced function (re)starts its timer. *)
Definition debounce_call (sc : scope) : scope :=
  mkScope (location sc) (Some COMMIT_DELAY) (committed sc).

(** [storeInURL(k, v)] *)
Definition storeInURL (k : string) (v : value) (queue : jsobj) (sc : scope)
  : jsobj * scope :=
  (obj_set k v (obj_spread [] queue), debounce_call sc).

(** One unit of time for one debounce timer: the trailing call runs
    when the time left is used up. *)
Definition tick1 (queue : jsobj) (sc : scope) : jsobj * scope :=
  match timer sc with
  | None => (queue, sc)
  | Some (S (S n)) => (queue, mkScope (location sc) (Some (S n)) (committed sc))
  | Some _ => commit queue sc
  end.

Fixpoint elapse (dt : nat) (queue : jsobj) (sc : scope) : jsobj * scope :=
  match dt with
  | O => (queue, sc)
  | S n => let qs := tick1 queue sc in elapse n (fst qs) (snd qs)
  end.

(** The host observes a new location (it re-renders the component with
    it). *)
Definition navigate (search : string) (sc : scope) : scope :=
  mkScope search (timer sc) (committed sc).

(** *** The same operations on the module state *)

Definition on_scope (i : nat) (f : jsobj -> scope -> jsobj * scope) (w : world)
  : world :=
  match scopes w !! i with
  | Some sc => let r := f (commitQueue w) sc in
               mkWorld (fst r) (<[i := snd r]> (scopes w))
  | None => w
  end.

Fixpoint tick1_all (queue : jsobj) (scs : list scope) : jsobj * list scope :=
  match scs with
  | [] => (queue, [])
  | sc :: rest =>
      let r := tick1 queue sc in
      let r' := tick1_all (fst r) rest in
      (fst r', snd r :: snd r')
  end.

Fixpoint world_elapse (dt : nat) (w : world) : world :=
  match dt with
  | O => w
  | S n => let r := tick1_all (commitQueue w) (scopes w) in
           world_elapse n (mkWorld (fst r) (snd r))
  end.

(** ** The per-key binding *)

Inductive user_validator : Type :=
| ValidatorArray (options : list value)
| ValidatorFunction (f : value -> bool).

Record QsStateDefinition : Type := mkDef {
  key : string;
  default : value;
  hydrator : option (value -> value);
  dehydrator : option (value -> value);
  validator : option user_validator
}.

Definition identityFn (v : value) : value := v.

Definition hydrator_of (def : QsStateDefinition) : value -> value :=
  match hydrator def with Some f => f | None => identityFn end.

Definition dehydrator_of (def : QsStateDefinition) : value -> value :=
  match dehydrator def with Some f => f | None => identityFn end.

(** The [validator] callback of [useQsState]. *)
Definition validate (def : QsStateDefinition) (v : value) : bool :=
  match validator def with
  | Some (ValidatorArray options) => includes options v
  | Some (ValidatorFunction f) => f v
  | None => truthy v
  end.

Definition getValueFromURL (def : QsStateDefinition) (searchString : string)
  : value :=
  let parsedQS := Qs.parse searchString in
  let value := hydrator_of def (get parsedQS (key def)) in
  if validate def value then value else default def.

(** What React keeps for one [useQsState] call: the [mounted] ref, the
    state of [useState] and the [locSearch] of the last render (the
    dependency the effect is compared against).  The state is a datum:
    [setValueState(v)] stores [v] (React's updater form, taken when [v]
    is a function, is not part of the model). *)
Record binding : Type := mkBinding {
  mounted : bool;
  valueState : value;
  lastSearch : string
}.

(** The first render: [useState(getValueFromURL(locSearch))]. *)
Definition first_render (def : QsStateDefinition) (locSearch : string)
  : binding :=
  mkBinding false (getValueFromURL def locSearch) locSearch.

(** What one run of the effect does to the binding. *)
Inductive effect_result : Type :=
| JustMounted                  (* [mounted.current = true; return] *)
| NoUpdate                     (* falls through without [setValueState] *)
| SetValueState (v : value).   (* [setValueState(v)] *)

(** The body of the effect; [queue] is the module's [commitQueue] when
    the effect runs. *)
Definition run_effect (def : QsStateDefinition) (locSearch : string)
  (queue : jsobj) (b : binding) : effect_result :=
  if negb (mounted b) then JustMounted
  else
    let v := getValueFromURL def locSearch in
    let hasPendingCommits := length (keys queue) in
    if Nat.eqb hasPendingCommits 0 && negb (isEqualObj v (valueState b))
    then SetValueState v
    else NoUpdate.

Definition effect (def : QsStateDefinition) (locSearch : string)
  (queue : jsobj) (b : binding) : binding :=
  match run_effect def locSearch queue b with
  | JustMounted => mkBinding true (valueState b) (lastSearch b)
  | NoUpdate => b
  | SetValueState v => mkBinding (mounted b) v (lastSearch b)
  end.

(** Mounting: the first render, then the effect runs for the first
    time. *)
Definition activate (def : QsStateDefinition) (locSearch : string)
  (queue : jsobj) : binding :=
  effect def locSearch queue (first_render def locSearch).

(** A later render: the effect runs when one of [[locSearch, def]]
    changed; [def_changed] tells whether the definition is a new
    object. *)
Definition rerender (def : QsStateDefinition) (def_changed : bool)
  (locSearch : string) (queue : jsobj) (b : binding) : binding :=
  let b' := mkBinding (mounted b) (valueState b) locSearch in
  if def_changed || negb (String.eqb locSearch (lastSearch b))
  then effect def locSearch queue b'
  else b'.

(** [setValue(value)] of a binding of scope [sc]. *)
Definition setValue (def : QsStateDefinition) (value : value)
  (b : binding) (queue : jsobj) (sc : scope) : binding * (jsobj * scope) :=
  let v := if validate def value then value else default def in
  let dehydratedVal := dehydrator_of def v in
  let b' := mkBinding (mounted b) v (lastSearch b) in
  let dehydratedDefaultVal := dehydrator_of def (default def) in
  (b', storeInURL (key def)
         (if negb (strict_eq dehydratedVal dehydratedDefaultVal)
          then dehydratedVal else VNull)
         queue sc).

(** ** Notions the statements use *)

(** [delete o[k]] *)
Definition obj_delete (k : string) (o : jsobj) : jsobj :=
  List.filter (fun p => negb (String.eqb (fst p) k)) o.


(** A burst of writes: each [(k, v, gap)] enqueues [k := v] and then
    lets [gap] units of time pass before the next one. *)
Fixpoint run_burst (ws : list (string * value * nat)) (queue : jsobj)
  (sc : scope) : jsobj * scope :=
  match ws with
  | [] => (queue, sc)
  | (k, v, gap) :: rest =>
      let r := storeInURL k v queue sc in
      let r' := elapse gap (fst r) (snd r) in
      run_burst rest (fst r') (snd r')
  end.

(** The queue a burst leaves behind when nothing is flushed. *)
Definition apply_writes (ws : list (string * value * nat)) (queue : jsobj)
  : jsobj :=
  fold_left (fun q w => obj_set (fst (fst w)) (snd (fst w)) q) ws queue.

Definition writes_key (k : string) (w : string * value * nat) : bool :=
  String.eqb (fst (fst w)) k.

(** Whether character [c] occurs in [s]. *)
Fixpoint has_char (c : ascii) (s : string) : bool :=
  match s with
  | EmptyString => false
  | String a rest => Ascii.eqb a c || has_char c rest
  end.

(** A key of the flat fragment: no opening bracket. *)
Definition flat_key (k : string) : bool := negb (has_char "[" k).

(** The characters an encoded key or value is made of. *)
Definition plain_char (c : ascii) : bool :=
  Qs.unreserved c || Ascii.eqb c "%".

Fixpoint all_plain (s : string) : bool :=
  match s with
  | EmptyString => true
  | String a rest => plain_char a && all_plain rest
  end.

(** A pair [qs.stringify] writes for a property named [prefix]: the
    encoded key is [prefix], possibly continued by bracketed path
    segments. *)
Definition pair_under (prefix pr : string) : Prop :=
  exists suffix s,
    pr = Qs.pair_string (prefix +:+ suffix) s /\
    (suffix = "" \/ exists r, suffix = String "[" r).

(** A decision procedure for [wf_obj]. *)
Definition key_beforeb (k1 k2 : string) : bool :=
  match array_index k2 with
  | Some n2 => match array_index k1 with
               | Some n1 => (n1 <? n2)%N
               | None => false
               end
  | None => true
  end.

Fixpoint wf_keysb (ks : list string) : bool :=
  match ks with
  | [] => true
  | k :: rest =>
      negb (existsb (String.eqb k) rest)
      && forallb (key_beforeb k) rest
      && wf_keysb rest
  end.

Definition wf_objb (o : jsobj) : bool := wf_keysb (keys o).

(** Whether the merged mapping puts its keys as the location has them,
    followed by the keys only the queue has. *)
Definition appends_new_keys (search : string) (queue : jsobj) : Prop :=
  keys (qsObject search queue)
  = keys (Qs.parse search)
    ++ List.filter (fun k => negb (has (Qs.parse search) k)) (keys queue).

(** Whether key [k] of [o] contributes a pair to [qs.stringify]. *)
Definition emits (o : jsobj) (k : string) : bool :=
  match obj_get o k with
  | Some v => negb (Qs.is_null v)
              && match Qs.stringify_value k v with [] => false | _ :: _ => true end
  | None => false
  end.

(** ** The older JavaScript source

    The hook before its port to TypeScript differs from the TypeScript
    source in the effect: it has no [hasPendingCommits] test. *)
Module Legacy.

Definition run_effect (def : QsStateDefinition) (locSearch : string)
  (b : binding) : effect_result :=
  if negb (mounted b) then JustMounted
  else
    let v := getValueFromURL def locSearch in
    if negb (isEqualObj v (valueState b)) then SetValueState v else NoUpdate.

End Legacy.

(** ** Reading JSON text back

    What the statements about [isEqualObj] need: the structure of a
    value without its references, the keys an object serializes, and
    the shape of the text [JSON.stringify] writes. *)

(** The value with every reference forgotten. *)
Fixpoint erase_refs (v : value) : value :=
  match v with
  | VArr _ items => VArr 0 (map erase_refs items)
  | VObj _ props => VObj 0 (map (fun p => (fst p, erase_refs (snd p))) props)
  | VFun _ => VFun 0
  | _ => v
  end.


(** The text of a value as an array element. *)
Definition ser (v : value) : string :=
  match JSON_stringify v with
  | Some s => s
  | None => "null"
  end.

(** The members of an object's text: key and text of the value. *)
Definition members (props : list (string * value)) : list (string * string) :=
  flat_map (fun p => match JSON_stringify (snd p) with
                     | Some s => [(fst p, s)]
                     | None => []
                     end) props.

Definition render_member (m : string * string) : string :=
  json_quote (fst m) +:+ ":" +:+ snd m.

Definition join_tail (sep : string) (l : list string) : string :=
  match l with
  | [] => ""
  | _ :: _ => sep +:+ join sep l
  end.

Inductive kind : Type := KNull | KBool | KNum | KStr | KArr | KObj.

Definition kind_of (v : value) : kind :=
  match v with
  | VUndefined | VNull | VFun _ => KNull
  | VBool _ => KBool
  | VNum _ => KNum
  | VStr _ => KStr
  | VArr _ _ => KArr
  | VObj _ _ => KObj
  end.

Definition is_numchar (c : ascii) : bool :=
  let n := N_of_ascii c in
  (n =? 45)%N || ((48 <=? n)%N && (n <=? 57)%N).

(** The kind of value a JSON text starts, from its first character. *)
Definition kind_of_char (c : ascii) : option kind :=
  if is_numchar c then Some KNum
  else if Ascii.eqb c "n" then Some KNull
  else if Ascii.eqb c "t" || Ascii.eqb c "f" then Some KBool
  else if Ascii.eqb c dquote then Some KStr
  else if Ascii.eqb c "[" then Some KArr
  else if Ascii.eqb c "{" then Some KObj
  else None.

Fixpoint numeric (s : string) : bool :=
  match s with
  | EmptyString => true
  | String c rest => is_numchar c && numeric rest
  end.

Definition is_delim (c : ascii) : bool :=
  Ascii.eqb c "," || Ascii.eqb c "]" || Ascii.eqb c "}".

(** What can follow a value inside a JSON text. *)
Definition delim (x : string) : Prop :=
  match x with
  | EmptyString => True
  | String c _ => is_delim c = true
  end.

(** A text [s] is tight when no other value's text can be confused
    with it in front of a delimiter. *)
Definition tight (s : string) : Prop :=
  forall v' x y, delim x -> delim y ->
    s +:+ x = ser v' +:+ y -> s = ser v' /\ x = y.

(** Reads one escaped character back. *)
Definition unescape1 (t : string) : option (ascii * string) :=
  match t with
  | EmptyString => None
  | String c rest =>
      if Ascii.eqb c dquote then None
      else if Ascii.eqb c "\" then
        match rest with
        | String e rest' =>
            if Ascii.eqb e "b" then Some (ascii_of_N 8, rest')
            else if Ascii.eqb e "t" then Some (ascii_of_N 9, rest')
            else if Ascii.eqb e "n" then Some (ascii_of_N 10, rest')
            else if Ascii.eqb e "f" then Some (ascii_of_N 12, rest')
            else if Ascii.eqb e "r" then Some (ascii_of_N 13, rest')
            else if Ascii.eqb e dquote then Some (dquote, rest')
            else if Ascii.eqb e "\" then Some ("\"%char, rest')
            else match rest' with
                 | String _ (String _ (String h (String l rest''))) =>
                     match Qs.hex_val h, Qs.hex_val l with
                     | Some a, Some b => Some (ascii_of_N (16 * a + b), rest'')
                     | _, _ => None
                     end
                 | _ => None
                 end
        | EmptyString => None
        end
      else Some (c, rest)
  end.

(** Induction on values that reaches inside arrays and objects. *)
Section ValueInduction.

Variable P : value -> Prop.
Hypothesis Hundefined : P VUndefined.
Hypothesis Hnull : P VNull.
Hypothesis Hbool : forall b, P (VBool b).
Hypothesis Hnum : forall n, P (VNum n).
Hypothesis Hstr : forall s, P (VStr s).
Hypothesis Harr : forall r items, Forall P items -> P (VArr r items).
Hypothesis Hobj : forall r props,
  Forall (fun p => P (snd p)) props -> P (VObj r props).
Hypothesis Hfun : forall r, P (VFun r).

Fixpoint value_ind_nested (v : value) : P v :=
  match v with
  | VUndefined => Hundefined
  | VNull => Hnull
  | VBool b => Hbool b
  | VNum n => Hnum n
  | VStr s => Hstr s
  | VArr r items =>
      Harr r items
        ((fix go (l : list value) : Forall P l :=
            match l with
            | [] => List.Forall_nil P
            | x :: t => @List.Forall_cons _ P x t (value_ind_nested x) (go t)
            end) items)
  | VObj r props =>
      Hobj r props
        ((fix go (l : list (string * value)) : Forall (fun p => P (snd p)) l :=
            match l with
            | [] => List.Forall_nil _
            | (k, x) :: t =>
                @List.Forall_cons _ (fun p => P (snd p)) (k, x) t (value_ind_nested x) (go t)
            end) props)
  | VFun r => Hfun r
  end.

End ValueInduction.

(** ** The module state over time *)

(** What can happen to the module state: a scope is created, a binding
    of a scope writes, the host shows a scope a new location, time
    passes. *)
Inductive step : world -> world -> Prop :=
| step_create search w :
    step w (snd (useQsStateCreator search w))
| step_store i k v w :
    step w (on_scope i (storeInURL k v) w)
| step_navigate i search w :
    step w (on_scope i (fun q sc => (q, navigate search sc)) w)
| step_elapse dt w :
    step w (world_elapse dt w).

Inductive reachable : world -> Prop :=
| reachable_initial : reachable initial_world
| reachable_step w w' : reachable w -> step w w' -> reachable w'.

(** ** The definitions of the test suite *)

Module Tests.

(** [{ key: 'val', default }] *)
Definition plain (default : value) : QsStateDefinition :=
  mkDef "val" default None None None.

Definition complexDefault : value :=
  VObj 1 [("count", VNum 1); ("type", VStr "cat");
          ("other", VStr "default prop never on URL")].

(** [v?.[k]] *)
Definition prop (v : value) (k : string) : value :=
  match v with
  | VObj _ props => get props k
  | _ => VUndefined
  end.

(** A value inside a template literal. *)
Definition interpolate (v : value) : string :=
  match v with
  | VStr s => s
  | VNum n => string_of_Z n
  | VBool b => if b then "true" else "false"
  | VNull => "null"
  | _ => "undefined"
  end.

(** [parseInt(s)] on a decimal numeral. *)
Definition parseInt (s : string) : value :=
  match NilZero.int_of_string s with
  | Some d => VNum (Z.of_int d)
  | None => VUndefined
  end.

(** The definition of 'should handle objects as default'. *)
Definition qsDef : QsStateDefinition :=
  mkDef "val" complexDefault
    (Some (fun v =>
             match v with
             | VStr s =>
                 if String.eqb s "" then VNull
                 else
                   let parts := Qs.split_on "|" s in
                   match complexDefault with
                   | VObj _ props =>
                       VObj 2 (obj_set "count" (parseInt (nth 1 parts ""))
                                 (obj_set "type" (VStr (nth 0 parts ""))
                                    (obj_spread [] props)))
                   | _ => VNull
                   end
             | _ => VNull
             end))
    (Some (fun v => VStr (interpolate (prop v "type") +:+ "|"
                          +:+ interpolate (prop v "count"))))
    None.

End Tests.

(** ** Notions of the further properties *)

(** The text [qs.stringify] writes for a string, a number or a
    boolean. *)
Definition scalar_text (v : value) : option string :=
  match v with
  | VStr s => Some s
  | VNum n => Some (string_of_Z n)
  | VBool b => Some (if b then "true" else "false")
  | _ => None
  end.

(** What [parseValues] holds under [k] after reading [parts], when it
    held [cur] before: the values of the parts named [k], combined. *)
Fixpoint collect (k : string) (parts : list string) (cur : option value)
  : option value :=
  match parts with
  | [] => cur
  | part :: rest =>
      if String.eqb (fst (Qs.parse_part part)) k
      then collect k rest
             (Some (match cur with
                    | Some old => Qs.combine old (VStr (snd (Qs.parse_part part)))
                    | None => VStr (snd (Qs.parse_part part))
                    end))
      else collect k rest cur
  end.

(** The characters of a committed search string. *)
Definition url_char (c : ascii) : bool :=
  plain_char c || Ascii.eqb c "=" || Ascii.eqb c "&".

Fixpoint all_url_chars (s : string) : bool :=
  match s with
  | EmptyString => true
  | String a rest => url_char a && all_url_chars rest
  end.

(** The parameters [qs.parse] looks at. *)
Definition parameters (search : string) : list string :=
  firstn Qs.parameterLimit (Qs.split_on "&" (Qs.strip_query_prefix search)).

(** [read] as the source computes it from a raw entry. *)
Definition read_raw (def : QsStateDefinition) (raw : value) : value :=
  if validate def (hydrator_of def raw) then hydrator_of def raw
  else default def.

(** An object of the flat fragment: none of its keys opens a
    bracket. *)
Definition flat_obj (o : jsobj) : bool := forallb flat_key (keys o).

(** A location of the flat fragment: none of the parameters [qs.parse]
    looks at has a key that opens a bracket. *)
Definition flat_search (search : string) : bool :=
  forallb (fun part => flat_key (fst (Qs.parse_part part))) (parameters search).

(** An entry [qs.stringify] writes as one pair made of its key and its
    string, or skips: a string or [null] under a flat key that
    [qs.parse] accepts. *)
Definition plain_entry (p : string * value) : bool :=
  match snd p with
  | VStr _ | VNull => flat_key (fst p) && Qs.accepted_key (fst p)
  | _ => false
  end.

(** The mapping without its [null] entries. *)
Definition drop_nulls (o : jsobj) : jsobj :=
  List.filter (fun p => negb (Qs.is_null (snd p))) o.

(** The value [setValue(v)] stores in the binding: [v] validated. *)
Definition written (def : QsStateDefinition) (v : value) : value :=
  if validate def v then v else default def.

(** The search string committed at the end of the quiet window that
    follows [setValue(v)], when nothing else is written meanwhile. *)
Definition next_commit (def : QsStateDefinition) (v : value) (b : binding)
  (queue : jsobj) (sc : scope) : string :=
  Qs.stringify (qsObject (location sc) (fst (snd (setValue def v b queue sc)))).

(** What a binding goes through.  [binding_trace ds b]: the binding is
    in state [b] after renders with the definitions [ds], latest first.
    A render comes with the definition of the render before it (the
    same object or an equal one, as [def_changed] tells) or with
    another definition; the [setValue] that is called is the callback
    of the latest render or one kept from an earlier render, which
    validates with the definition of that render. *)
Inductive binding_trace : list QsStateDefinition -> binding -> Prop :=
| trace_first def search :
    binding_trace [def] (first_render def search)
| trace_rerender def ds def_changed search queue b :
    binding_trace (def :: ds) b ->
    binding_trace (def :: ds) (rerender def def_changed search queue b)
| trace_replace def' ds search queue b :
    binding_trace ds b ->
    binding_trace (def' :: ds) (rerender def' true search queue b)
| trace_setValue def ds v queue sc b :
    binding_trace ds b -> def ∈ ds ->
    binding_trace ds (fst (setValue def v b queue sc)).

(** The number of calls of the debounced [commit] of a scope that are
    pending: one while its timer runs. *)
Definition armed (sc : scope) : nat :=
  match timer sc with Some _ => 1 | None => 0 end.

(** Whether a parameter is named [k]. *)
Definition named (k part : string) : bool :=
  String.eqb (fst (Qs.parse_part part)) k.

(** The entry [setValue(v)] queues under the key of the definition. *)
Definition queued (def : QsStateDefinition) (v : value) : value :=
  if strict_eq (dehydrator_of def (written def v))
       (dehydrator_of def (default def))
  then VNull else dehydrator_of def (written def v).

(** Two bindings of a scope write one after the other, [gap] apart,
    and then nothing is written for [dt]. *)
Definition two_writes (d1 : QsStateDefinition) (v1 : value) (b1 : binding)
  (d2 : QsStateDefinition) (v2 : value) (b2 : binding) (gap dt : nat)
  (queue : jsobj) (sc : scope) : jsobj * scope :=
  let r1 := setValue d1 v1 b1 queue sc in
  let r1' := elapse gap (fst (snd r1)) (snd (snd r1)) in
  let r2 := setValue d2 v2 b2 (fst r1') (snd r1') in
  elapse dt (fst (snd r2)) (snd (snd r2)).

(** The time left of a pending call is positive and at most [d]. *)
Definition timer_within (d : nat) (sc : scope) : Prop :=
  match timer sc with Some r => 0 < r <= d | None => True end.

(** Nothing is pending: the queue is empty and every timer is idle. *)
Definition quiescent (w : world) : Prop :=
  commitQueue w = [] /\ Forall (fun sc => timer sc = None) (scopes w).

(** [Number.MAX_SAFE_INTEGER]: up to it, in magnitude, every integer
    is a number of its own and prints as its decimal numeral. *)
Definition MAX_SAFE_INTEGER : Z := 9007199254740991.

(** The data JSON writes with nothing lost: no [undefined] and no
    function, at the top or inside, and only safe integers for numbers
    (so no [NaN] and no infinity, which [JSON.stringify] writes as
    [null]). *)
Fixpoint is_data (v : value) : bool :=
  match v with
  | VUndefined | VFun _ => false
  | VNum n => (Z.abs n <=? MAX_SAFE_INTEGER)%Z
  | VArr _ items => forallb is_data items
  | VObj _ props => forallb (fun p => is_data (snd p)) props
  | _ => true
  end.

(** * Facts about strings *)

Section StringFacts.

#[local] Arguments String.append !_ _ / : simpl nomatch.

Lemma sapp_assoc (a b c : string) : (a +:+ b) +:+ c = a +:+ (b +:+ c).
Proof. induction a as [|ch a IH]; simpl; [reflexivity | now f_equal]. Qed.

Lemma sapp_nil_r (a : string) : a +:+ "" = a.
Proof. induction a as [|ch a IH]; simpl; [reflexivity | now f_equal]. Qed.

Lemma length_sapp (a b : string) :
  String.length (a +:+ b) = String.length a + String.length b.
Proof. induction a as [|ch a IH]; simpl; [reflexivity | now f_equal]. Qed.

Lemma has_char_sapp c (a b : string) :
  has_char c (a +:+ b) = has_char c a || has_char c b.
Proof.
  induction a as [|ch a IH]; simpl; [reflexivity|].
  now rewrite IH, orb_assoc.
Qed.

Lemma substring_all (a : string) : substring 0 (String.length a) a = a.
Proof. induction a as [|ch a IH]; simpl; [reflexivity | now f_equal]. Qed.

Lemma substring_prefix (a x : string) :
  substring 0 (String.length a) (a +:+ x) = a.
Proof.
  induction a as [|ch a IH]; simpl; [now destruct x | now f_equal].
Qed.

Lemma substring_skip (a x : string) :
  substring (String.length a) (String.length x) (a +:+ x) = x.
Proof.
  induction a as [|ch a IH]; simpl; [apply substring_all | assumption].
Qed.

(** [s.indexOf(sep)] when [sep] is the character after a prefix that
    does not contain it. *)
Lemma index_after_prefix c (a x : string) :
  has_char c a = false ->
  index 0 (String c "") (a +:+ String c x) = Some (String.length a).
Proof.
  induction a as [|ch a IH]; simpl; intros Hno.
  - destruct (ascii_dec c c); [now destruct x | contradiction].
  - apply orb_false_iff in Hno as [Hch Hno].
    destruct (ascii_dec c ch) as [->|_].
    + now rewrite Ascii.eqb_refl in Hch.
    + now rewrite IH.
Qed.

(** [s.indexOf(sub)] when the first character of [sub] does not occur
    in [s]. *)
Lemma index_absent c sub (s : string) :
  has_char c s = false -> index 0 (String c sub) s = None.
Proof.
  induction s as [|ch s IH]; simpl; intros Hno; [reflexivity|].
  apply orb_false_iff in Hno as [Hch Hno].
  destruct (ascii_dec c ch) as [->|_].
  - now rewrite Ascii.eqb_refl in Hch.
  - now rewrite IH.
Qed.

End StringFacts.

(** * Facts about plain objects *)

Section ObjectFacts.

Implicit Types (o target src : jsobj) (k : string) (v : value).

Lemma has_elem_of o k : has o k = true <-> k ∈ keys o.
Proof.
  unfold has. rewrite existsb_exists. split.
  - intros (x & Hin & Heq). apply String.eqb_eq in Heq. subst x.
    now apply list_elem_of_In.
  - intros Hin. exists k. split; [now apply list_elem_of_In | apply String.eqb_refl].
Qed.

Lemma has_false o k : has o k = false <-> k ∉ keys o.
Proof.
  rewrite <- has_elem_of. destruct (has o k); split; congruence.
Qed.

Lemma obj_get_None o k : obj_get o k = None <-> k ∉ keys o.
Proof.
  induction o as [|[k' v'] rest IH]; simpl.
  - split; [intros _; apply not_elem_of_nil | reflexivity].
  - rewrite not_elem_of_cons. destruct (String.eqb_spec k' k) as [->|Hne].
    + split; [discriminate | intros [? _]; congruence].
    + rewrite IH. split; [intros ?; split; congruence | tauto].
Qed.

Lemma obj_get_Some_has o k v : obj_get o k = Some v -> has o k = true.
Proof.
  intros H. destruct (has o k) eqn:E; [reflexivity|].
  apply has_false, obj_get_None in E. congruence.
Qed.

Lemma array_index_inj k1 k2 n :
  array_index k1 = Some n -> array_index k2 = Some n -> k1 = k2.
Proof.
  unfold array_index. intros H1 H2.
  destruct (NilZero.uint_of_string k1) as [d1|]; [|discriminate].
  destruct (NilZero.uint_of_string k2) as [d2|]; [|discriminate].
  destruct (_ && _) eqn:E1 in H1; [|discriminate].
  destruct (_ && _) eqn:E2 in H2; [|discriminate].
  apply andb_true_iff in E1 as [E1 _], E2 as [E2 _].
  apply String.eqb_eq in E1, E2. congruence.
Qed.

(** *** Reading after writing *)

Lemma obj_get_replace_eq k v o :
  k ∈ keys o -> obj_get (obj_replace k v o) k = Some v.
Proof.
  induction o as [|[k' v'] rest IH]; simpl; intros Hin.
  - now apply elem_of_nil in Hin.
  - destruct (String.eqb_spec k' k) as [->|Hne]; simpl.
    + now rewrite String.eqb_refl.
    + apply String.eqb_neq in Hne as Hne'. rewrite Hne'.
      apply IH. apply elem_of_cons in Hin as [->|]; [congruence | assumption].
Qed.

Lemma obj_get_replace_ne k k' v o :
  k' <> k -> obj_get (obj_replace k v o) k' = obj_get o k'.
Proof.
  intros Hne. induction o as [|[k0 v0] rest IH]; simpl; [reflexivity|].
  destruct (String.eqb_spec k0 k) as [->|Hne0]; simpl.
  - apply not_eq_sym, String.eqb_neq in Hne. now rewrite Hne.
  - now rewrite IH.
Qed.

Lemma keys_replace k v o : keys (obj_replace k v o) = keys o.
Proof.
  induction o as [|[k0 v0] rest IH]; simpl; [reflexivity|].
  destruct (String.eqb k0 k); simpl; [reflexivity | now rewrite IH].
Qed.

Lemma obj_get_insert_index_eq n k v o :
  k ∉ keys o -> obj_get (obj_insert_index n k v o) k = Some v.
Proof.
  induction o as [|[k0 v0] rest IH]; simpl; intros Hnin.
  - now rewrite String.eqb_refl.
  - apply not_elem_of_cons in Hnin as [Hne Hnin].
    destruct (array_index k0) as [n0|]; [destruct (n0 <? n)%N|]; simpl;
      rewrite ?String.eqb_refl; try reflexivity.
    apply not_eq_sym, String.eqb_neq in Hne. rewrite Hne. now apply IH.
Qed.

Lemma obj_get_insert_index_ne n k k' v o :
  k' <> k -> obj_get (obj_insert_index n k v o) k' = obj_get o k'.
Proof.
  intros Hne. apply not_eq_sym, String.eqb_neq in Hne.
  induction o as [|[k0 v0] rest IH]; simpl.
  - now rewrite Hne.
  - destruct (array_index k0) as [n0|]; [destruct (n0 <? n)%N|]; simpl;
      rewrite ?Hne, ?IH; reflexivity.
Qed.

Lemma keys_insert_index n k v o x :
  x ∈ keys (obj_insert_index n k v o) <-> x = k \/ x ∈ keys o.
Proof.
  induction o as [|[k0 v0] rest IH]; simpl.
  - rewrite elem_of_cons. reflexivity.
  - destruct (array_index k0) as [n0|]; [destruct (n0 <? n)%N|]; simpl;
      rewrite ?elem_of_cons, ?IH; simpl; rewrite ?elem_of_cons; tauto.
Qed.

Lemma obj_get_app_r o k v :
  k ∉ keys o -> obj_get (o ++ [(k, v)]) k = Some v.
Proof.
  induction o as [|[k0 v0] rest IH]; simpl; intros Hnin.
  - now rewrite String.eqb_refl.
  - apply not_elem_of_cons in Hnin as [Hne Hnin].
    apply not_eq_sym, String.eqb_neq in Hne. rewrite Hne. now apply IH.
Qed.

Lemma obj_get_app_ne o k k' v :
  k' <> k -> obj_get (o ++ [(k, v)]) k' = obj_get o k'.
Proof.
  intros Hne. apply not_eq_sym, String.eqb_neq in Hne.
  induction o as [|[k0 v0] rest IH]; simpl.
  - now rewrite Hne.
  - now rewrite IH.
Qed.

Lemma obj_get_set_eq k v o : obj_get (obj_set k v o) k = Some v.
Proof.
  unfold obj_set. destruct (has o k) eqn:E.
  - apply obj_get_replace_eq. now apply has_elem_of.
  - apply has_false in E. destruct (array_index k).
    + now apply obj_get_insert_index_eq.
    + now apply obj_get_app_r.
Qed.

Lemma obj_get_set_ne k k' v o :
  k' <> k -> obj_get (obj_set k v o) k' = obj_get o k'.
Proof.
  intros Hne. unfold obj_set. destruct (has o k).
  - now apply obj_get_replace_ne.
  - destruct (array_index k).
    + now apply obj_get_insert_index_ne.
    + now apply obj_get_app_ne.
Qed.

Lemma keys_set_elem_of k v o x :
  x ∈ keys (obj_set k v o) <-> x = k \/ x ∈ keys o.
Proof.
  unfold obj_set. destruct (has o k) eqn:E.
  - rewrite keys_replace. apply has_elem_of in E.
    split; [tauto | intros [->|]; assumption].
  - destruct (array_index k).
    + apply keys_insert_index.
    + unfold keys. rewrite map_app, elem_of_app. simpl.
      rewrite list_elem_of_singleton. tauto.
Qed.

Lemma keys_set_present k v o :
  k ∈ keys o -> keys (obj_set k v o) = keys o.
Proof.
  intros Hin. apply has_elem_of in Hin. unfold obj_set. rewrite Hin.
  apply keys_replace.
Qed.

Lemma keys_set_new_name k v o :
  k ∉ keys o -> array_index k = None -> keys (obj_set k v o) = keys o ++ [k].
Proof.
  intros Hnin Hidx. apply has_false in Hnin. unfold obj_set.
  rewrite Hnin, Hidx. unfold keys. now rewrite map_app.
Qed.

(** *** Well-formed objects stay well-formed *)

Lemma wf_nil : wf_obj [].
Proof. split; [apply NoDup_nil_2 | apply FOP_nil]. Qed.

Lemma wf_cons_inv k v o :
  wf_obj ((k, v) :: o) ->
  (k ∉ keys o) /\ Forall (key_before k) (keys o) /\ wf_obj o.
Proof.
  intros [Hnd Hord]. simpl in Hnd, Hord.
  apply NoDup_cons in Hnd as [Hnin Hnd].
  inversion Hord; subst. repeat split; assumption.
Qed.

Lemma wf_cons k v o :
  k ∉ keys o -> Forall (key_before k) (keys o) -> wf_obj o ->
  wf_obj ((k, v) :: o).
Proof.
  intros Hnin Hall [Hnd Hord]. split; simpl.
  - now apply NoDup_cons.
  - now apply FOP_cons.
Qed.

Lemma key_before_index_lt k1 k2 n1 n2 :
  array_index k1 = Some n1 -> array_index k2 = Some n2 ->
  (n1 < n2)%N -> key_before k1 k2.
Proof. unfold key_before. now intros -> ->. Qed.

Lemma key_before_name k1 k2 : array_index k2 = None -> key_before k1 k2.
Proof. unfold key_before. now intros ->. Qed.

Lemma wf_insert_index n k v o :
  array_index k = Some n -> k ∉ keys o -> wf_obj o ->
  wf_obj (obj_insert_index n k v o).
Proof.
  intros Hidx. induction o as [|[k0 v0] rest IH]; simpl; intros Hnin Hwf.
  - apply wf_cons; [apply not_elem_of_nil | constructor | apply wf_nil].
  - apply not_elem_of_cons in Hnin as [Hne Hnin].
    apply wf_cons_inv in Hwf as (Hnin0 & Hall0 & Hwf).
    destruct (array_index k0) as [n0|] eqn:Hidx0.
    + destruct (N.ltb_spec n0 n) as [Hlt|Hge].
      * apply wf_cons; [| |now apply IH].
        -- rewrite keys_insert_index. intros [->|?]; [congruence | contradiction].
        -- apply Forall_forall. intros x Hx.
           apply keys_insert_index in Hx as [->|Hx].
           ++ now apply (key_before_index_lt _ _ n0 n).
           ++ rewrite Forall_forall in Hall0. now apply Hall0.
      * assert (n < n0)%N as Hlt.
        { destruct (N.eq_dec n n0) as [->|]; [|lia].
          exfalso. apply Hne. now apply (array_index_inj _ _ n0). }
        apply wf_cons; [| |now apply wf_cons].
        -- simpl. rewrite not_elem_of_cons. split; assumption.
        -- simpl. constructor.
           ++ now apply (key_before_index_lt _ _ n n0).
           ++ rewrite Forall_forall in Hall0 |- *. intros x Hx.
              specialize (Hall0 x Hx). unfold key_before in Hall0 |- *.
              rewrite Hidx. rewrite Hidx0 in Hall0.
              destruct (array_index x); [lia | exact I].
    + apply wf_cons; [| |now apply wf_cons].
      * simpl. rewrite not_elem_of_cons. split; assumption.
      * simpl. constructor.
        -- now apply key_before_name.
        -- rewrite Forall_forall in Hall0 |- *. intros x Hx.
           specialize (Hall0 x Hx). unfold key_before in Hall0 |- *.
           rewrite Hidx0 in Hall0.
           destruct (array_index x); [contradiction | exact I].
Qed.

Lemma wf_app_name k v o :
  array_index k = None -> k ∉ keys o -> wf_obj o -> wf_obj (o ++ [(k, v)]).
Proof.
  intros Hidx. induction o as [|[k0 v0] rest IH]; simpl; intros Hnin Hwf.
  - apply wf_cons; [apply not_elem_of_nil | constructor | apply wf_nil].
  - apply not_elem_of_cons in Hnin as [Hne Hnin].
    apply wf_cons_inv in Hwf as (Hnin0 & Hall0 & Hwf).
    apply wf_cons; [| |now apply IH].
    + unfold keys. rewrite map_app, not_elem_of_app. split; [assumption|].
      simpl. rewrite list_elem_of_singleton. congruence.
    + unfold keys. rewrite map_app. apply Forall_app. split; [assumption|].
      simpl. constructor; [now apply key_before_name | constructor].
Qed.

Lemma wf_set k v o : wf_obj o -> wf_obj (obj_set k v o).
Proof.
  intros Hwf. unfold obj_set. destruct (has o k) eqn:E.
  - unfold wf_obj. rewrite keys_replace. exact Hwf.
  - apply has_false in E. destruct (array_index k) eqn:Hidx.
    + now apply wf_insert_index.
    + now apply wf_app_name.
Qed.

Lemma wf_spread target src : wf_obj target -> wf_obj (obj_spread target src).
Proof.
  unfold obj_spread. revert target.
  induction src as [|[k v] rest IH]; simpl; intros target Hwf; [assumption|].
  apply IH. now apply wf_set.
Qed.

(** *** Spreading *)

Lemma obj_insert_index_last n k v o :
  array_index k = Some n -> wf_obj (o ++ [(k, v)]) ->
  obj_insert_index n k v o = o ++ [(k, v)].
Proof.
  intros Hidx. induction o as [|[k0 v0] rest IH]; simpl; intros Hwf;
    [reflexivity|].
  apply wf_cons_inv in Hwf as (_ & Hall0 & Hwf).
  unfold keys in Hall0. rewrite map_app in Hall0.
  apply Forall_app in Hall0 as [_ Hk]. simpl in Hk.
  inversion Hk as [|? ? Hb _]; subst. unfold key_before in Hb.
  rewrite Hidx in Hb. destruct (array_index k0) as [n0|]; [|contradiction].
  apply N.ltb_lt in Hb. rewrite Hb. now rewrite IH.
Qed.

Lemma wf_app_inv_last o k v : wf_obj (o ++ [(k, v)]) -> k ∉ keys o.
Proof.
  intros [Hnd _]. unfold keys in Hnd. rewrite map_app in Hnd.
  apply NoDup_app in Hnd as (_ & Hdisj & _). intros Hin.
  apply (Hdisj k Hin). simpl. apply list_elem_of_singleton. reflexivity.
Qed.

Lemma obj_set_last k v o : wf_obj (o ++ [(k, v)]) -> obj_set k v o = o ++ [(k, v)].
Proof.
  intros Hwf. pose proof (wf_app_inv_last _ _ _ Hwf) as Hnin.
  apply has_false in Hnin. unfold obj_set. rewrite Hnin.
  destruct (array_index k) eqn:Hidx; [|reflexivity].
  now apply obj_insert_index_last.
Qed.

Lemma wf_app_l o1 o2 : wf_obj (o1 ++ o2) -> wf_obj o1.
Proof.
  induction o1 as [|[k v] rest IH]; simpl; intros Hwf; [apply wf_nil|].
  apply wf_cons_inv in Hwf as (Hnin & Hall & Hwf).
  unfold keys in Hnin, Hall. rewrite map_app in Hnin, Hall.
  apply not_elem_of_app in Hnin as [Hnin _].
  apply Forall_app in Hall as [Hall _].
  apply wf_cons; [assumption | assumption | now apply IH].
Qed.

Lemma obj_spread_app target src :
  wf_obj (target ++ src) -> obj_spread target src = target ++ src.
Proof.
  unfold obj_spread. revert target.
  induction src as [|[k v] rest IH]; simpl; intros target Hwf.
  - now rewrite app_nil_r.
  - assert (target ++ (k, v) :: rest = (target ++ [(k, v)]) ++ rest) as E
        by now rewrite <- app_assoc.
    rewrite E in Hwf |- *. rewrite obj_set_last by now apply wf_app_l in Hwf.
    now apply IH.
Qed.

(** A literal that only spreads a well-formed object is a copy of it. *)
Lemma obj_spread_nil o : wf_obj o -> obj_spread [] o = o.
Proof. intros Hwf. now apply (obj_spread_app [] o). Qed.

Lemma obj_get_spread target src k :
  NoDup (keys src) ->
  obj_get (obj_spread target src) k =
  match obj_get src k with
  | Some v => Some v
  | None => obj_get target k
  end.
Proof.
  unfold obj_spread. revert target.
  induction src as [|[k0 v0] rest IH]; simpl; intros target Hnd; [reflexivity|].
  apply NoDup_cons in Hnd as [Hnin Hnd]. rewrite IH by assumption.
  destruct (String.eqb_spec k0 k) as [->|Hne].
  - apply obj_get_None in Hnin. rewrite Hnin. apply obj_get_set_eq.
  - destruct (obj_get rest k); [reflexivity|].
    apply obj_get_set_ne. congruence.
Qed.

End ObjectFacts.

(** * Facts about the codec *)

Section CodecFacts.

Lemma wf_fold_set {A} (f : jsobj -> A -> jsobj) (l : list A) o :
  (forall o' a, wf_obj o' -> wf_obj (f o' a)) -> wf_obj o ->
  wf_obj (fold_left f l o).
Proof.
  intros Hf. revert o. induction l as [|a rest IH]; simpl; intros o Hwf;
    [assumption|]. apply IH. now apply Hf.
Qed.

Lemma wf_parse_values str : wf_obj (Qs.parse_values str).
Proof.
  unfold Qs.parse_values. apply wf_fold_set; [|apply wf_nil].
  intros o part Hwf. destruct (obj_get o _); now apply wf_set.
Qed.

Lemma wf_parse str : wf_obj (Qs.parse str).
Proof.
  unfold Qs.parse. apply wf_fold_set; [|apply wf_nil].
  intros o p Hwf. destruct (Qs.accepted_key _); [now apply wf_set | assumption].
Qed.

Lemma wf_qsObject search queue : wf_obj (qsObject search queue).
Proof. unfold qsObject. apply wf_spread, wf_spread, wf_nil. Qed.

(** The merged mapping: queued entries first, the decoded location for
    the other keys. *)
Lemma obj_get_qsObject search queue k :
  wf_obj queue ->
  obj_get (qsObject search queue) k =
  match obj_get queue k with
  | Some v => Some v
  | None => obj_get (Qs.parse search) k
  end.
Proof.
  intros [Hnd _]. unfold qsObject. rewrite obj_get_spread by assumption.
  now rewrite (obj_spread_nil _ (wf_parse search)).
Qed.

Lemma encoded_keys_not_null o k :
  k ∈ Qs.encoded_keys o -> exists v, (k, v) ∈ o /\ Qs.is_null v = false.
Proof.
  unfold Qs.encoded_keys. intros Hin. apply list_elem_of_In, in_flat_map in Hin.
  destruct Hin as ([k' v] & Hin & Hk). simpl in Hk.
  destruct (Qs.is_null v) eqn:E; [contradiction|].
  destruct (Qs.stringify_value k' v); [contradiction|].
  destruct Hk as [<-|[]]. exists v. split; [now apply list_elem_of_In | assumption].
Qed.

Lemma obj_get_elem_of o k v :
  NoDup (keys o) -> (k, v) ∈ o -> obj_get o k = Some v.
Proof.
  induction o as [|[k0 v0] rest IH]; simpl; intros Hnd Hin.
  - now apply elem_of_nil in Hin.
  - apply NoDup_cons in Hnd as [Hnin Hnd].
    apply elem_of_cons in Hin as [Heq|Hin].
    + inversion Heq; subst. now rewrite String.eqb_refl.
    + destruct (String.eqb_spec k0 k) as [->|Hne]; [|now apply IH].
      exfalso. apply Hnin. unfold keys. apply list_elem_of_fmap.
      now exists (k, v).
Qed.

(** With [skipNulls] a key queued as [null] contributes nothing. *)
Lemma null_key_not_encoded o k :
  wf_obj o -> obj_get o k = Some VNull -> k ∉ Qs.encoded_keys o.
Proof.
  intros [Hnd _] Hget Hin.
  apply encoded_keys_not_null in Hin as (v & Hin & Hnull).
  apply obj_get_elem_of in Hin; [|assumption].
  rewrite Hget in Hin. inversion Hin; subst. discriminate.
Qed.

Lemma stringify_pairs_delete_null o k :
  wf_obj o -> obj_get o k = Some VNull ->
  Qs.stringify_pairs (obj_delete k o) = Qs.stringify_pairs o.
Proof.
  unfold Qs.stringify_pairs, obj_delete.
  induction o as [|[k0 v0] rest IH]; simpl; intros Hwf Hget; [reflexivity|].
  apply wf_cons_inv in Hwf as (Hnin & _ & Hwf).
  destruct (String.eqb_spec k0 k) as [->|Hne]; simpl.
  - inversion Hget; subst. simpl.
    clear IH Hget. induction rest as [|[k1 v1] rest IH]; simpl; [reflexivity|].
    simpl in Hnin. apply not_elem_of_cons in Hnin as [Hne Hnin].
    apply not_eq_sym, String.eqb_neq in Hne. rewrite Hne. simpl.
    f_equal. apply IH; [assumption|].
    now apply wf_cons_inv in Hwf as (_ & _ & Hwf).
  - f_equal. now apply IH.
Qed.

(** The encoded location is the one of the mapping without the key. *)
Lemma stringify_delete_null o k :
  wf_obj o -> obj_get o k = Some VNull ->
  Qs.stringify o = Qs.stringify (obj_delete k o).
Proof.
  intros Hwf Hget. unfold Qs.stringify.
  now rewrite stringify_pairs_delete_null.
Qed.

End CodecFacts.

(** * What the codec reads back from what it wrote *)

Section RoundTrip.

#[local] Arguments String.append !_ _ / : simpl nomatch.
#[local] Arguments Ascii.eqb : simpl never.

Lemma all_plain_sapp a b : all_plain (a +:+ b) = all_plain a && all_plain b.
Proof.
  induction a as [|ch a IH]; simpl; [reflexivity|].
  now rewrite IH, andb_assoc.
Qed.

Lemma all_plain_encode_char c : all_plain (Qs.encode_char c) = true.
Proof. destruct c as [[] [] [] [] [] [] [] []]; reflexivity. Qed.

Lemma all_plain_encode s : all_plain (Qs.encode s) = true.
Proof.
  induction s as [|c s IH]; simpl; [reflexivity|].
  now rewrite all_plain_sapp, all_plain_encode_char, IH.
Qed.

Lemma all_plain_no c s :
  plain_char c = false -> all_plain s = true -> has_char c s = false.
Proof.
  intros Hc. induction s as [|a s IH]; simpl; [reflexivity|].
  intros H. apply andb_true_iff in H as [Ha Hs]. rewrite (IH Hs).
  destruct (Ascii.eqb_spec a c) as [->|]; [congruence | reflexivity].
Qed.

Lemma encode_no c s : plain_char c = false -> has_char c (Qs.encode s) = false.
Proof. intros Hc. apply all_plain_no; [assumption | apply all_plain_encode]. Qed.

Lemma pair_string_no c k s :
  plain_char c = false -> Ascii.eqb "=" c = false ->
  has_char c (Qs.pair_string k s) = false.
Proof.
  intros Hc Heq. unfold Qs.pair_string. rewrite has_char_sapp. simpl.
  now rewrite !encode_no, Heq.
Qed.

Lemma plus_to_space_id s : has_char "+" s = false -> Qs.plus_to_space s = s.
Proof.
  induction s as [|a s IH]; simpl; [reflexivity|]. intros H.
  apply orb_false_iff in H as [Ha Hs]. now rewrite Ha, IH.
Qed.

Lemma percent_decode_encode_char c r :
  Qs.percent_decode (Qs.encode_char c +:+ r)
  = option_map (String c) (Qs.percent_decode r).
Proof.
  destruct c as [[] [] [] [] [] [] [] []]; simpl;
    destruct (Qs.percent_decode r); reflexivity.
Qed.

Lemma percent_decode_encode s : Qs.percent_decode (Qs.encode s) = Some s.
Proof.
  induction s as [|c s IH]; simpl; [reflexivity|].
  now rewrite percent_decode_encode_char, IH.
Qed.

(** Decoding undoes encoding. *)
Lemma decode_encode s : Qs.decode (Qs.encode s) = s.
Proof.
  unfold Qs.decode. rewrite plus_to_space_id by now apply encode_no.
  now rewrite percent_decode_encode.
Qed.

(** A written pair is read back as the key and the value it was made
    of. *)
Lemma parse_part_pair k s : Qs.parse_part (Qs.pair_string k s) = (k, s).
Proof.
  unfold Qs.parse_part, Qs.pair_string.
  change (Qs.encode k +:+ "=" +:+ Qs.encode s)
    with (Qs.encode k +:+ String "=" (Qs.encode s)).
  rewrite index_absent.
  - rewrite index_after_prefix by now apply encode_no.
    rewrite substring_prefix, decode_encode.
    replace (String.length (Qs.encode k +:+ String "=" (Qs.encode s))
             - S (String.length (Qs.encode k)))
      with (String.length (Qs.encode s))
      by (rewrite length_sapp; simpl; lia).
    change (String "=" (Qs.encode s)) with ("=" +:+ Qs.encode s).
    rewrite <- sapp_assoc.
    replace (S (String.length (Qs.encode k)))
      with (String.length (Qs.encode k +:+ "="))
      by (rewrite length_sapp; simpl; lia).
    now rewrite substring_skip, decode_encode.
  - rewrite has_char_sapp. simpl. now rewrite !encode_no.
Qed.

Lemma split_on_absent c s : has_char c s = false -> Qs.split_on c s = [s].
Proof.
  induction s as [|a s IH]; simpl; [reflexivity|]. intros H.
  apply orb_false_iff in H as [Ha Hs]. now rewrite Ha, (IH Hs).
Qed.

Lemma split_on_sapp c a rest :
  has_char c a = false ->
  Qs.split_on c (a +:+ String c rest) = a :: Qs.split_on c rest.
Proof.
  induction a as [|ch a IH]; simpl; intros H.
  - now rewrite Ascii.eqb_refl.
  - apply orb_false_iff in H as [Hch Ha]. now rewrite Hch, (IH Ha).
Qed.

Lemma split_on_join parts :
  parts <> [] -> Forall (fun p => has_char "&" p = false) parts ->
  Qs.split_on "&" (join "&" parts) = parts.
Proof.
  induction parts as [|p [|q t] IH]; intros Hne Hall; [congruence| |].
  - inversion Hall; subst. now apply split_on_absent.
  - inversion Hall as [|? ? Hp Hrest]; subst.
    change (join "&" (p :: q :: t)) with (p +:+ String "&" (join "&" (q :: t))).
    rewrite split_on_sapp by assumption. f_equal. now apply IH.
Qed.

Lemma has_char_join c parts :
  Ascii.eqb "&" c = false -> Forall (fun p => has_char c p = false) parts ->
  has_char c (join "&" parts) = false.
Proof.
  intros Hc. induction parts as [|p [|q t] IH]; intros Hall; [reflexivity| |].
  - now inversion Hall.
  - inversion Hall as [|? ? Hp Hrest]; subst.
    change (join "&" (p :: q :: t)) with (p +:+ String "&" (join "&" (q :: t))).
    rewrite has_char_sapp, Hp. simpl. rewrite Hc. now apply IH.
Qed.

Lemma strip_query_prefix_id s :
  has_char "?" s = false -> Qs.strip_query_prefix s = s.
Proof.
  destruct s as [|c s]; simpl; [reflexivity|]. intros H.
  apply orb_false_iff in H as [Hc _]. now rewrite Hc.
Qed.

(** *** The pairs of a property carry its key *)

Lemma pair_under_extend prefix mid pr :
  pair_under (prefix +:+ String "[" mid) pr -> pair_under prefix pr.
Proof.
  intros (suffix & s & -> & _). exists (String "[" mid +:+ suffix), s. split.
  - now rewrite sapp_assoc.
  - right. simpl. eauto.
Qed.

Lemma pair_under_self prefix s : pair_under prefix (Qs.pair_string prefix s).
Proof. exists "", s. rewrite sapp_nil_r. now split; [|left]. Qed.

Lemma stringify_value_under v : forall prefix,
  Forall (pair_under prefix) (Qs.stringify_value prefix v).
Proof.
  induction v as [| |b|n|s|r items IH|r props IH|r] using value_ind_nested;
    intros prefix; simpl;
    try (constructor; [apply pair_under_self | constructor]);
    try constructor.
  - generalize 0%nat. induction IH as [|e t He Ht IHt]; intros i; [constructor|].
    apply Forall_app. split; [|apply IHt].
    destruct (Qs.is_null e); [constructor|].
    eapply Forall_impl; [apply He|]. intros pr. apply pair_under_extend.
  - induction IH as [|[k e] t He Ht IHt]; [constructor|].
    apply Forall_app. split; [|apply IHt]. simpl in *.
    destruct (Qs.is_null e); [constructor|].
    eapply Forall_impl; [apply He|]. intros pr. apply pair_under_extend.
Qed.

Lemma stringify_pairs_under o :
  Forall (fun pr => exists k, k ∈ Qs.encoded_keys o /\ pair_under k pr)
    (Qs.stringify_pairs o).
Proof.
  unfold Qs.stringify_pairs, Qs.encoded_keys.
  induction o as [|[k v] rest IH]; [constructor|].
  cbn [flat_map fst snd]. apply Forall_app. split.
  - destruct (Qs.is_null v); [constructor|].
    pose proof (stringify_value_under v k) as Hv.
    destruct (Qs.stringify_value k v) as [|pr prs]; [constructor|].
    eapply Forall_impl; [apply Hv|]. intros pr' Hpr. exists k.
    split; [apply list_elem_of_here | assumption].
  - eapply Forall_impl; [apply IH|]. intros pr (k' & Hk' & Hpr). exists k'.
    split; [|assumption]. apply elem_of_app. now right.
Qed.

(** *** The keys [qs.parse] finds *)

Lemma keys_parse_values_fold parts : forall acc k,
  k ∈ keys (fold_left
              (fun obj part =>
                 let kv := Qs.parse_part part in
                 match obj_get obj (fst kv) with
                 | Some old => obj_set (fst kv) (Qs.combine old (VStr (snd kv))) obj
                 | None => obj_set (fst kv) (VStr (snd kv)) obj
                 end) parts acc) ->
  k ∈ keys acc \/ exists part, part ∈ parts /\ fst (Qs.parse_part part) = k.
Proof.
  induction parts as [|part rest IH]; simpl; intros acc k Hk; [now left|].
  apply IH in Hk as [Hk|(part' & Hin & Hp)].
  - destruct (obj_get acc _); apply keys_set_elem_of in Hk as [->|Hk];
      try (now left); right; exists part; split; try reflexivity;
      apply list_elem_of_here.
  - right. exists part'. split; [now apply list_elem_of_further | assumption].
Qed.

Lemma keys_parse_fold l : forall acc k,
  k ∈ keys (fold_left
              (fun obj p => if Qs.accepted_key (fst p)
                            then obj_set (fst p) (snd p) obj else obj) l acc) ->
  k ∈ keys acc \/ (k ∈ keys l /\ Qs.accepted_key k = true).
Proof.
  induction l as [|[k0 v0] rest IH]; simpl; intros acc k Hk; [now left|].
  apply IH in Hk as [Hk|[Hk Hacc]].
  - destruct (Qs.accepted_key k0) eqn:E; [|now left].
    apply keys_set_elem_of in Hk as [->|Hk]; [|now left].
    right. split; [apply list_elem_of_here | assumption].
  - right. split; [now apply list_elem_of_further | assumption].
Qed.

(** A flat key that decoding finds in an encoded location is a key the
    encoding wrote. *)
Lemma decoded_keys_are_encoded o k :
  flat_key k = true ->
  k ∈ keys (Qs.parse (Qs.stringify o)) -> k ∈ Qs.encoded_keys o.
Proof.
  intros Hflat Hk. unfold Qs.parse in Hk.
  apply keys_parse_fold in Hk as [Hk|[Hk Hacc]];
    [now apply elem_of_nil in Hk|].
  unfold Qs.parse_values in Hk.
  apply keys_parse_values_fold in Hk as [Hk|(part & Hin & Hpart)];
    [now apply elem_of_nil in Hk|].
  pose proof (stringify_pairs_under o) as Hunder.
  assert (has_char "?" (Qs.stringify o) = false) as Hq.
  { unfold Qs.stringify. apply has_char_join; [reflexivity|].
    eapply Forall_impl; [apply Hunder|].
    intros pr (k' & _ & suffix & s & -> & _). now apply pair_string_no. }
  rewrite strip_query_prefix_id in Hin by assumption.
  apply elem_of_take in Hin as (i & Hi & _).
  assert (part ∈ Qs.split_on "&" (Qs.stringify o)) as Hin
      by (apply list_elem_of_lookup; eauto).
  clear Hi. unfold Qs.stringify in Hin.
  destruct (Qs.stringify_pairs o) as [|pr prs] eqn:Epairs.
  - simpl in Hin. apply list_elem_of_singleton in Hin as ->.
    subst k. discriminate Hacc.
  - rewrite split_on_join in Hin; [|discriminate|].
    + rewrite Forall_forall in Hunder.
      destruct (Hunder part Hin) as (k' & Hk' & suffix & s & -> & Hsuffix).
      rewrite parse_part_pair in Hpart. simpl in Hpart. subst k.
      destruct Hsuffix as [->|(r & ->)]; [now rewrite sapp_nil_r|].
      exfalso. unfold flat_key in Hflat. rewrite has_char_sapp in Hflat.
      simpl in Hflat. now rewrite orb_true_r in Hflat.
    + eapply Forall_impl; [apply Hunder|].
      intros pr' (k' & _ & suffix & s & -> & _). now apply pair_string_no.
Qed.

(** So a flat key that is not encoded is not in the decoded location. *)
Lemma not_encoded_not_decoded o k :
  flat_key k = true -> k ∉ Qs.encoded_keys o ->
  obj_get (Qs.parse (Qs.stringify o)) k = None.
Proof.
  intros Hflat Hno. apply obj_get_None. intros Hk.
  now apply Hno, decoded_keys_are_encoded.
Qed.

End RoundTrip.

(** * Facts about the committer *)

Section CommitterFacts.

Implicit Types (q queue : jsobj) (sc : scope).

Lemma elapse_idle dt q sc : timer sc = None -> elapse dt q sc = (q, sc).
Proof.
  revert q sc. induction dt as [|n IH]; simpl; intros q sc Ht; [reflexivity|].
  unfold tick1. rewrite Ht. simpl. now apply IH.
Qed.

(** Before the time left is used up nothing is committed. *)
Lemma elapse_before dt q sc r :
  timer sc = Some r -> dt < r ->
  elapse dt q sc = (q, mkScope (location sc) (Some (r - dt)) (committed sc)).
Proof.
  revert q sc r. induction dt as [|n IH]; simpl; intros q sc r Ht Hlt.
  - rewrite Nat.sub_0_r, <- Ht. now destruct sc.
  - unfold tick1. rewrite Ht. destruct r as [|[|r']]; [lia | lia |]. simpl.
    rewrite (IH _ _ (S r')); [|reflexivity | lia]. reflexivity.
Qed.

(** Once it is used up the trailing call has run, once. *)
Lemma elapse_fire dt q sc r :
  timer sc = Some r -> 0 < r -> r <= dt -> elapse dt q sc = commit q sc.
Proof.
  revert q sc r. induction dt as [|n IH]; simpl; intros q sc r Ht Hpos Hle;
    [lia|].
  unfold tick1. rewrite Ht. destruct r as [|[|r']]; [lia | |].
  - simpl. now apply elapse_idle.
  - simpl. rewrite (IH _ _ (S r')); [|reflexivity | lia | lia]. reflexivity.
Qed.

Lemma storeInURL_queue k v q sc :
  wf_obj q -> fst (storeInURL k v q sc) = obj_set k v q.
Proof. intros Hwf. simpl. now rewrite obj_spread_nil. Qed.

Lemma wf_apply_writes ws q : wf_obj q -> wf_obj (apply_writes ws q).
Proof.
  intros Hwf. unfold apply_writes. apply wf_fold_set; [|assumption].
  intros o w Ho. now apply wf_set.
Qed.

Lemma apply_writes_untouched ws q k :
  Forall (fun w => writes_key k w = false) ws ->
  obj_get (apply_writes ws q) k = obj_get q k.
Proof.
  unfold apply_writes. revert q.
  induction ws as [|[[k0 v0] g0] rest IH]; simpl; intros q Hall; [reflexivity|].
  inversion Hall as [|? ? Hk Hrest]; subst.
  rewrite IH by assumption. apply obj_get_set_ne.
  unfold writes_key in Hk. simpl in Hk. apply String.eqb_neq in Hk. congruence.
Qed.

Lemma apply_writes_app ws1 ws2 q :
  apply_writes (ws1 ++ ws2) q = apply_writes ws2 (apply_writes ws1 q).
Proof. unfold apply_writes. apply fold_left_app. Qed.

(** The last write to a key is the entry the queue holds for it. *)
Lemma apply_writes_last pre post k v gap q :
  Forall (fun w => writes_key k w = false) post ->
  obj_get (apply_writes (pre ++ (k, v, gap) :: post) q) k = Some v.
Proof.
  intros Hpost. rewrite apply_writes_app.
  change (apply_writes ((k, v, gap) :: post) (apply_writes pre q))
    with (apply_writes post (obj_set k v (apply_writes pre q))).
  rewrite apply_writes_untouched by assumption. apply obj_get_set_eq.
Qed.

(** Writes that follow each other inside the quiet window only
    accumulate: nothing is committed and the timer stays armed. *)
Lemma run_burst_pending ws : forall q sc,
  wf_obj q ->
  Forall (fun w => snd w < COMMIT_DELAY) ws ->
  fst (run_burst ws q sc) = apply_writes ws q /\
  location (snd (run_burst ws q sc)) = location sc /\
  committed (snd (run_burst ws q sc)) = committed sc /\
  (ws <> [] ->
   exists r, timer (snd (run_burst ws q sc)) = Some r /\ 0 < r <= COMMIT_DELAY).
Proof.
  induction ws as [|[[k v] gap] rest IH]; intros q sc Hwf Hgaps.
  - simpl. repeat split. congruence.
  - inversion Hgaps as [|? ? Hgap Hrest]; subst. simpl in Hgap.
    cbn [run_burst].
    rewrite (elapse_before gap _ (snd (storeInURL k v q sc)) COMMIT_DELAY)
      by (try reflexivity; assumption).
    cbn [fst snd]. rewrite storeInURL_queue by assumption.
    destruct (IH (obj_set k v q)
                (mkScope (location (snd (storeInURL k v q sc)))
                   (Some (COMMIT_DELAY - gap))
                   (committed (snd (storeInURL k v q sc))))
                (wf_set k v q Hwf) Hrest) as (Hq & Hloc & Hcom & Ht).
    repeat split; try assumption.
    intros _. destruct rest as [|w rest'].
    + simpl. exists (COMMIT_DELAY - gap). split; [reflexivity | lia].
    + apply Ht. discriminate.
Qed.

Lemma pair_string_emitted o k s :
  (k, VStr s) ∈ o -> Qs.pair_string k s ∈ Qs.stringify_pairs o.
Proof.
  intros Hin. unfold Qs.stringify_pairs. apply list_elem_of_In, in_flat_map.
  exists (k, VStr s). split; [now apply list_elem_of_In | simpl; now left].
Qed.

Lemma obj_get_Some_elem_of o k v : obj_get o k = Some v -> (k, v) ∈ o.
Proof.
  induction o as [|[k0 v0] rest IH]; simpl; [discriminate|].
  destruct (String.eqb_spec k0 k) as [->|Hne].
  - intros [= ->]. apply list_elem_of_here.
  - intros H. apply list_elem_of_further. now apply IH.
Qed.

End CommitterFacts.

Section Decision.

Lemma key_beforeb_sound k1 k2 : key_beforeb k1 k2 = true -> key_before k1 k2.
Proof.
  unfold key_beforeb, key_before.
  destruct (array_index k2); [|trivial].
  destruct (array_index k1); [|discriminate]. apply N.ltb_lt.
Qed.

Lemma wf_objb_sound o : wf_objb o = true -> wf_obj o.
Proof.
  unfold wf_objb, wf_obj. induction (keys o) as [|k rest IH]; simpl.
  - intros _. split; [apply NoDup_nil_2 | apply FOP_nil].
  - rewrite !andb_true_iff, negb_true_iff.
    intros [[Hnin Hall] Hrest]. destruct (IH Hrest) as [Hnd Hord]. split.
    + apply NoDup_cons. split; [|assumption]. intros Hin.
      assert (existsb (String.eqb k) rest = true); [|congruence].
      apply existsb_exists. exists k.
      split; [now apply list_elem_of_In | apply String.eqb_refl].
    + apply FOP_cons; [|assumption]. apply Forall_forall. intros x Hx.
      apply key_beforeb_sound. rewrite forallb_forall in Hall.
      now apply Hall, list_elem_of_In.
Qed.

End Decision.

(** * The committer flushes the queue when the timer expires *)



(** * The binding: reading, writing, reconciling *)

Section BindingFacts.

Implicit Types (def : QsStateDefinition) (b : binding) (queue : jsobj).




Lemma queue_empty_length queue : Nat.eqb (length (keys queue)) 0 = true <-> queue = [].
Proof.
  destruct queue; simpl; split; try reflexivity; discriminate.
Qed.

Lemma activate_mounted def search queue :
  mounted (activate def search queue) = true.
Proof. reflexivity. Qed.

Lemma effect_mounted def search queue b :
  mounted b = true -> mounted (effect def search queue b) = true.
Proof.
  intros Hm. unfold effect, run_effect. rewrite Hm. simpl.
  now destruct (_ && _).
Qed.

End BindingFacts.

Lemma not_inherited k :
  has Object_prototype k = false -> obj_get Object_prototype k = None.
Proof. intros H. now apply obj_get_None, has_false. Qed.

Lemma accepted_not_inherited k :
  Qs.accepted_key k = true -> has Object_prototype k = false.
Proof.
  unfold Qs.accepted_key. intros H. apply andb_true_iff in H as [_ H].
  now apply negb_true_iff in H.
Qed.










(** * Writes inside one quiet window *)

(** C6.  In a burst of writes that follow each other inside the quiet
    window, where [(k, v)] is the last write to [k]: nothing is
    committed during the burst; after one more quiet window exactly one
    commit has been made, with the encoding of the decoded location
    overlaid with the queue; in that merged mapping [k] holds [v] (and
    when [v] is a string the pair [k=v] is emitted); a write to [k]
    leaves the queue entry of every other key as it was, and so does the
    whole burst for the keys it does not write. *)
Theorem last_write_wins (pre post : list (string * value * nat))
  (k : string) (v : value) (gap : nat) (queue : jsobj) (sc : scope) :
  wf_obj queue ->
  Forall (fun w => snd w < COMMIT_DELAY) (pre ++ (k, v, gap) :: post) ->
  Forall (fun w => writes_key k w = false) post ->
  committed (snd (run_burst (pre ++ (k, v, gap) :: post) queue sc))
  = committed sc /\
  elapse COMMIT_DELAY
    (fst (run_burst (pre ++ (k, v, gap) :: post) queue sc))
    (snd (run_burst (pre ++ (k, v, gap) :: post) queue sc))
  = ([], mkScope (location sc) None
           (committed sc ++
            [Qs.stringify
               (qsObject (location sc)
                  (fst (run_burst (pre ++ (k, v, gap) :: post) queue sc)))])) /\
  obj_get (qsObject (location sc)
             (fst (run_burst (pre ++ (k, v, gap) :: post) queue sc))) k
  = Some v /\
  (forall s, v = VStr s ->
     Qs.pair_string k s
     ∈ Qs.stringify_pairs
         (qsObject (location sc)
            (fst (run_burst (pre ++ (k, v, gap) :: post) queue sc)))) /\
  (forall k' v' sc', k' <> k ->
     obj_get (fst (storeInURL k v' queue sc')) k' = obj_get queue k') /\
  (forall k', Forall (fun w => writes_key k' w = false)
                (pre ++ (k, v, gap) :: post) ->
     obj_get (fst (run_burst (pre ++ (k, v, gap) :: post) queue sc)) k'
     = obj_get queue k').
Proof.
  intros Hwf Hgaps Hpost.
  destruct (run_burst_pending (pre ++ (k, v, gap) :: post) queue sc Hwf Hgaps)
    as (Hq & Hloc & Hcom & Ht).
  destruct Ht as (r & Hr & Hpos); [now destruct pre|].
  assert (wf_obj (apply_writes (pre ++ (k, v, gap) :: post) queue)) as Hwf'
      by now apply wf_apply_writes.
  assert (obj_get (qsObject (location sc)
                     (apply_writes (pre ++ (k, v, gap) :: post) queue)) k
          = Some v) as Hk.
  { rewrite obj_get_qsObject by assumption.
    now rewrite apply_writes_last. }
  rewrite Hq. split; [assumption|]. split; [|split; [assumption|split; [|split]]].
  - rewrite <- Hq. rewrite (elapse_fire _ _ _ r Hr); [|lia|lia].
    unfold commit. now rewrite Hloc, Hcom.
  - intros s ->. apply pair_string_emitted. now apply obj_get_Some_elem_of.
  - intros k' v' sc' Hne. rewrite storeInURL_queue by assumption.
    now apply obj_get_set_ne.
  - intros k' Hk'. now apply apply_writes_untouched.
Qed.

Lemma last_write_wins_witness :
  wf_obj [] /\
  elapse COMMIT_DELAY
    (fst (run_burst [("val", VStr "dog", 40); ("color", VStr "red", 30);
                     ("val", VStr "ferret", 10)]
            [] (new_scope "?val=cat&color=teal")))
    (snd (run_burst [("val", VStr "dog", 40); ("color", VStr "red", 30);
                     ("val", VStr "ferret", 10)]
            [] (new_scope "?val=cat&color=teal")))
  = ([], mkScope "?val=cat&color=teal" None ["val=ferret&color=red"]).
Proof.
  split; [apply wf_nil|].
  apply (last_write_wins [("val", VStr "dog", 40); ("color", VStr "red", 30)] []
           "val" (VStr "ferret") 10 [] (new_scope "?val=cat&color=teal") wf_nil).
  - repeat constructor; simpl; unfold COMMIT_DELAY; lia.
  - constructor.
Defined.

(** * One queue for every scope *)

Section WorldFacts.

Lemma on_scope_lookup_same i f w sc :
  scopes w !! i = Some sc ->
  scopes (on_scope i f w) !! i = Some (snd (f (commitQueue w) sc)) /\
  commitQueue (on_scope i f w) = fst (f (commitQueue w) sc).
Proof.
  intros Hi. unfold on_scope. rewrite Hi. simpl. split; [|reflexivity].
  apply list_lookup_insert_eq. now apply lookup_lt_Some in Hi.
Qed.

Lemma on_scope_lookup_other i j f w :
  i <> j -> scopes (on_scope i f w) !! j = scopes w !! j.
Proof.
  intros Hne. unfold on_scope. destruct (scopes w !! i); [|reflexivity].
  simpl. now apply list_lookup_insert_ne.
Qed.

End WorldFacts.

(** C9.  There is one pending queue in the module state, whatever the
    number of scopes: a write enqueued through scope [i] is in the queue
    every scope sees; the flush of any scope [j] (the same or another)
    commits, to [j]'s commit operation and over [j]'s location, a merged
    mapping that holds that write; and the flush leaves the one queue
    empty, so the pending entries of every scope are gone at once. *)
Theorem queue_shared_by_scopes (w : world) (i j : nat) (sci scj : scope)
  (k : string) (v : value) :
  wf_obj (commitQueue w) ->
  scopes w !! i = Some sci -> scopes w !! j = Some scj ->
  obj_get (commitQueue (on_scope i (storeInURL k v) w)) k = Some v /\
  obj_get (qsObject (location scj)
             (commitQueue (on_scope i (storeInURL k v) w))) k = Some v /\
  (exists scj',
     scopes (on_scope j commit (on_scope i (storeInURL k v) w)) !! j = Some scj' /\
     committed scj'
     = committed scj ++
       [Qs.stringify (qsObject (location scj)
                        (commitQueue (on_scope i (storeInURL k v) w)))]) /\
  commitQueue (on_scope j commit (on_scope i (storeInURL k v) w)) = [].
Proof.
  intros Hwf Hi Hj.
  destruct (on_scope_lookup_same i (storeInURL k v) w sci Hi) as [Hsi Hq].
  assert (commitQueue (on_scope i (storeInURL k v) w) = obj_set k v (commitQueue w))
    as Hq' by (rewrite Hq; now apply storeInURL_queue).
  assert (exists scj1, scopes (on_scope i (storeInURL k v) w) !! j = Some scj1 /\
                       location scj1 = location scj /\
                       committed scj1 = committed scj) as (scj1 & Hj1 & Hloc & Hcom).
  { destruct (Nat.eq_dec i j) as [<-|Hne].
    - exists (snd (storeInURL k v (commitQueue w) sci)).
      split; [assumption|]. assert (sci = scj) as -> by congruence. now split.
    - exists scj. rewrite on_scope_lookup_other by assumption. now repeat split. }
  destruct (on_scope_lookup_same j commit _ scj1 Hj1) as [Hsj Hqj].
  split; [|split; [|split]].
  - rewrite Hq'. apply obj_get_set_eq.
  - rewrite Hq'. rewrite obj_get_qsObject by now apply wf_set.
    now rewrite obj_get_set_eq.
  - exists (snd (commit (commitQueue (on_scope i (storeInURL k v) w)) scj1)).
    split; [assumption|]. simpl. now rewrite Hloc, Hcom.
  - rewrite Hqj. reflexivity.
Qed.

Lemma queue_shared_by_scopes_witness :
  wf_obj [] /\
  commitQueue
    (on_scope 1 commit
       (on_scope 0 (storeInURL "val" (VStr "ferret"))
          (mkWorld [] [new_scope "?val=cat"; new_scope "?page=2"]))) = [] /\
  scopes
    (on_scope 1 commit
       (on_scope 0 (storeInURL "val" (VStr "ferret"))
          (mkWorld [] [new_scope "?val=cat"; new_scope "?page=2"])))
  = [mkScope "?val=cat" (Some COMMIT_DELAY) [];
     mkScope "?page=2" None ["page=2&val=ferret"]].
Proof.
  split; [apply wf_nil|]. split; [|reflexivity].
  apply (queue_shared_by_scopes
           (mkWorld [] [new_scope "?val=cat"; new_scope "?page=2"]) 0 1
           (new_scope "?val=cat") (new_scope "?page=2") "val" (VStr "ferret")
           wf_nil eq_refl eq_refl).
Defined.

(** Two scopes in time: the scope whose timer expires first commits the
    other scope's pending write too, and the other scope later commits
    its own location with nothing left to overlay. *)
Example cross_scope_flush :
  let w0 := mkWorld [] [new_scope "?a=1"; new_scope "?b=2"] in
  let w1 := world_elapse 50 (on_scope 1 (storeInURL "x" (VStr "B")) w0) in
  let w2 := world_elapse 50 (on_scope 0 (storeInURL "y" (VStr "A")) w1) in
  let w3 := world_elapse 50 w2 in
  w2 = mkWorld [] [mkScope "?a=1" (Some 50) [];
                   mkScope "?b=2" None ["b=2&x=B&y=A"]] /\
  w3 = mkWorld [] [mkScope "?a=1" None ["a=1"];
                   mkScope "?b=2" None ["b=2&x=B&y=A"]].
Proof. split; reflexivity. Qed.

(** * Key order of the committed location *)

Section OrderFacts.

Lemma has_set k v o x : has (obj_set k v o) x = String.eqb x k || has o x.
Proof.
  apply eq_true_iff_eq. rewrite orb_true_iff, !has_elem_of, keys_set_elem_of.
  now rewrite String.eqb_eq.
Qed.

(** Spreading [src] over [target] keeps the keys of [target] where they
    are and appends the new keys of [src], as long as none of the new
    keys is an array index. *)
Lemma keys_spread_names src : forall target,
  NoDup (keys src) ->
  (forall k, k ∈ keys src -> k ∉ keys target -> array_index k = None) ->
  keys (obj_spread target src)
  = keys target ++ List.filter (fun k => negb (has target k)) (keys src).
Proof.
  unfold obj_spread.
  induction src as [|[k v] rest IH]; simpl; intros target Hnd Hnames.
  - now rewrite app_nil_r.
  - apply NoDup_cons in Hnd as [Hnin Hnd].
    rewrite IH; [|assumption|].
    + assert (List.filter (fun x => negb (has (obj_set k v target) x)) (keys rest)
              = List.filter (fun x => negb (has target x)) (keys rest)) as ->.
      { apply filter_ext_in. intros x Hx. rewrite has_set.
        destruct (String.eqb_spec x k) as [->|]; [|reflexivity].
        exfalso. now apply Hnin, list_elem_of_In. }
      destruct (has target k) eqn:E; simpl.
      * apply has_elem_of in E. now rewrite keys_set_present.
      * apply has_false in E.
        rewrite keys_set_new_name; [now rewrite <- app_assoc | assumption |].
        apply Hnames; [apply list_elem_of_here | assumption].
    + intros x Hx Hnx. apply Hnames.
      * now apply list_elem_of_further.
      * intros Hin. apply Hnx. apply keys_set_elem_of. now right.
Qed.

(** The pairs are emitted in the order of the keys. *)
Lemma encoded_keys_filter o :
  NoDup (keys o) -> Qs.encoded_keys o = List.filter (emits o) (keys o).
Proof.
  unfold Qs.encoded_keys.
  induction o as [|[k v] rest IH]; simpl; intros Hnd; [reflexivity|].
  apply NoDup_cons in Hnd as [Hnin Hnd].
  assert (List.filter (emits ((k, v) :: rest)) (keys rest)
          = List.filter (emits rest) (keys rest)) as ->.
  { apply filter_ext_in. intros x Hx. unfold emits. simpl.
    destruct (String.eqb_spec k x) as [->|]; [|reflexivity].
    exfalso. now apply Hnin, list_elem_of_In. }
  rewrite <- IH by assumption. unfold emits. simpl. rewrite String.eqb_refl.
  destruct (Qs.is_null v); simpl; [reflexivity|].
  now destruct (Qs.stringify_value k v).
Qed.

Lemma flat_map_agree {A B} (f g : A -> list B) (l : list A) :
  (forall a, In a l -> f a = g a) -> flat_map f l = flat_map g l.
Proof.
  induction l as [|a l IH]; simpl; intros H; [reflexivity|].
  rewrite (H a) by now left. rewrite IH; [reflexivity|].
  intros x Hx. apply H. now right.
Qed.

(** The encoded location is made of the pairs of the encoded keys, key
    after key. *)
Lemma stringify_pairs_by_key o :
  NoDup (keys o) ->
  Qs.stringify_pairs o
  = flat_map (fun k => Qs.stringify_value k (get o k)) (Qs.encoded_keys o).
Proof.
  unfold Qs.stringify_pairs, Qs.encoded_keys.
  induction o as [|[k v] rest IH]; intros Hnd; [reflexivity|].
  apply NoDup_cons in Hnd as [Hnin Hnd].
  cbn [flat_map fst snd]. rewrite flat_map_app, (IH Hnd).
  f_equal.
  - destruct (Qs.is_null v); [reflexivity|].
    destruct (Qs.stringify_value k v) eqn:E; [reflexivity|].
    simpl. unfold get. simpl. rewrite String.eqb_refl, E. now rewrite app_nil_r.
  - apply flat_map_agree. intros x Hx. unfold get. simpl.
    destruct (String.eqb_spec k x) as [->|]; [|reflexivity].
    exfalso. apply Hnin. apply list_elem_of_In in Hx.
    apply encoded_keys_not_null in Hx as (v' & Hin & _).
    unfold keys. apply list_elem_of_fmap. now exists (x, v').
Qed.

End OrderFacts.

(** C7, as amended.  When no key that only the queue has is an array
    index, the merged mapping lists the keys of the decoded location in
    their order, each at its place even when a queued write overrides
    its value, followed by the keys only the queue has; the committed
    location is made of the pairs of those keys, in that order, the keys
    that encode to nothing left out.  With location
    [?val=cat&type=3&color=teal] and [setValue('ferret')] on key [val]
    the commit is [val=ferret&type=3&color=teal]. *)
Theorem commit_keeps_key_order (search : string) (queue : jsobj) :
  wf_obj queue ->
  (forall k, k ∈ keys queue -> k ∉ keys (Qs.parse search) ->
             array_index k = None) ->
  appends_new_keys search queue /\
  (forall k v, obj_get queue k = Some v ->
     obj_get (qsObject search queue) k = Some v) /\
  Qs.stringify (qsObject search queue)
  = join "&"
      (flat_map (fun k => Qs.stringify_value k (get (qsObject search queue) k))
         (List.filter (emits (qsObject search queue))
            (keys (Qs.parse search)
             ++ List.filter (fun k => negb (has (Qs.parse search) k))
                  (keys queue)))) /\
  (let def := mkDef "val" VNull None None None in
   let loc := "?val=cat&type=3&color=teal" in
   let r := setValue def (VStr "ferret") (activate def loc []) []
              (new_scope loc) in
   elapse COMMIT_DELAY (fst (snd r)) (snd (snd r))
   = ([], mkScope loc None ["val=ferret&type=3&color=teal"])).
Proof.
  intros Hwf Hnames.
  assert (appends_new_keys search queue) as Hkeys.
  { unfold appends_new_keys, qsObject.
    rewrite (obj_spread_nil _ (wf_parse search)).
    apply keys_spread_names; [apply Hwf | assumption]. }
  split; [assumption|]. split; [|split].
  - intros k v Hget. now rewrite obj_get_qsObject, Hget.
  - unfold Qs.stringify.
    rewrite stringify_pairs_by_key by apply wf_qsObject.
    rewrite encoded_keys_filter by apply wf_qsObject.
    now rewrite Hkeys.
  - reflexivity.
Qed.

Lemma commit_keeps_key_order_witness :
  wf_obj [("val", VStr "ferret"); ("page", VStr "2")] /\
  keys (qsObject "?val=cat&type=3&color=teal"
          [("val", VStr "ferret"); ("page", VStr "2")])
  = ["val"; "type"; "color"; "page"].
Proof.
  assert (wf_obj [("val", VStr "ferret"); ("page", VStr "2")]) as Hwf
    by (apply wf_objb_sound; reflexivity).
  split; [exact Hwf|].
  refine (proj1 (commit_keeps_key_order "?val=cat&type=3&color=teal"
                   [("val", VStr "ferret"); ("page", VStr "2")] Hwf _)).
  intros k Hk _. simpl in Hk.
  apply elem_of_cons in Hk as [->|Hk]; [reflexivity|].
  apply list_elem_of_singleton in Hk as ->. reflexivity.
Defined.

(** C7, as stated, fails on array-index keys: a key that only the queue
    has is committed before the keys of the location when it is an
    array index. *)
Lemma index_key_is_committed_first :
  wf_obj [("1", VStr "x")] /\
  ~ appends_new_keys "?val=cat" [("1", VStr "x")] /\
  (let def := mkDef "1" VNull None None None in
   let r := setValue def (VStr "x") (activate def "?val=cat" []) []
              (new_scope "?val=cat") in
   elapse COMMIT_DELAY (fst (snd r)) (snd (snd r))
   = ([], mkScope "?val=cat" None ["1=x&val=cat"])).
Proof.
  split; [apply wf_objb_sound; reflexivity|]. split; [|reflexivity].
  unfold appends_new_keys. vm_compute. discriminate.
Qed.

(** * Defaults are left out of the location *)

Section DefaultFacts.


(** What [setValue] enqueues when the dehydrated value is the
    dehydrated default. *)
Lemma setValue_enqueues_null def v b queue sc :
  wf_obj queue ->
  strict_eq (dehydrator_of def (written def v))
    (dehydrator_of def (default def)) = true ->
  fst (snd (setValue def v b queue sc)) = obj_set (key def) VNull queue.
Proof.
  intros Hwf Heq. unfold setValue. cbn [fst snd].
  rewrite storeInURL_queue by assumption.
  unfold written in Heq. now rewrite Heq.
Qed.

End DefaultFacts.

(** C3, as amended.  When the dehydrated form of the value
    [setValue(v)] stores ([v] when the validator accepts it, the
    default otherwise) is strictly equal to the dehydrated default,
    [setValue(v)] queues [null] for the key, and the commit made once
    the quiet window has passed leaves the key out, whatever the
    location held for it: the committed location is the encoding of the
    merged mapping without the key, and on the flat fragment (no key of
    the merged mapping opens a bracket) decoding it does not find the
    key.  For a rejected [v] the stored value is the default itself,
    so the condition asks only that the dehydrated default be [===] to
    itself. *)
Theorem default_value_is_dropped (def : QsStateDefinition) (v : value)
  (b : binding) (queue : jsobj) (sc : scope) :
  wf_obj queue ->
  strict_eq (dehydrator_of def (written def v))
    (dehydrator_of def (default def)) = true ->
  obj_get (fst (snd (setValue def v b queue sc))) (key def) = Some VNull /\
  elapse COMMIT_DELAY (fst (snd (setValue def v b queue sc)))
    (snd (snd (setValue def v b queue sc)))
  = ([], mkScope (location sc) None
           (committed sc ++
            [Qs.stringify
               (qsObject (location sc)
                  (fst (snd (setValue def v b queue sc))))])) /\
  (key def
   ∉ Qs.encoded_keys
       (qsObject (location sc) (fst (snd (setValue def v b queue sc))))) /\
  Qs.stringify (qsObject (location sc) (fst (snd (setValue def v b queue sc))))
  = Qs.stringify
      (obj_delete (key def)
         (qsObject (location sc) (fst (snd (setValue def v b queue sc))))) /\
  (flat_obj (qsObject (location sc) (fst (snd (setValue def v b queue sc))))
   = true ->
   obj_get
     (Qs.parse
        (Qs.stringify
           (qsObject (location sc) (fst (snd (setValue def v b queue sc))))))
     (key def) = None).
Proof.
  intros Hwf Heq.
  rewrite (setValue_enqueues_null def v b queue sc Hwf Heq).
  assert (wf_obj (obj_set (key def) VNull queue)) as Hwf' by now apply wf_set.
  assert (obj_get (obj_set (key def) VNull queue) (key def) = Some VNull) as Hget
      by apply obj_get_set_eq.
  assert (obj_get (qsObject (location sc) (obj_set (key def) VNull queue))
            (key def) = Some VNull) as Hm
      by now rewrite obj_get_qsObject, Hget.
  assert (key def
          ∉ Qs.encoded_keys (qsObject (location sc)
                               (obj_set (key def) VNull queue))) as Hno
      by now apply null_key_not_encoded; [apply wf_qsObject|].
  split; [assumption|]. split; [|split; [assumption|split]].
  - cbn [setValue snd storeInURL].
    rewrite (elapse_fire _ _ _ COMMIT_DELAY);
      [reflexivity | reflexivity | unfold COMMIT_DELAY; lia | lia].
  - now apply stringify_delete_null; [apply wf_qsObject|].
  - intros Hflat. apply not_encoded_not_decoded; [|assumption].
    unfold flat_obj in Hflat. rewrite forallb_forall in Hflat.
    apply Hflat, list_elem_of_In, has_elem_of.
    now apply (obj_get_Some_has _ _ VNull).
Qed.

Lemma default_value_is_dropped_witness :
  wf_obj [] /\
  elapse COMMIT_DELAY
    (fst (snd (setValue
                 (mkDef "val" (VStr "cat") None None
                    (Some (ValidatorArray
                             [VStr "cat"; VStr "dog"; VStr "bird"])))
                 (VStr "dinosaur")
                 (activate
                    (mkDef "val" (VStr "cat") None None
                       (Some (ValidatorArray
                                [VStr "cat"; VStr "dog"; VStr "bird"])))
                    "?val=dog&color=teal" [])
                 [] (new_scope "?val=dog&color=teal"))))
    (snd (snd (setValue
                 (mkDef "val" (VStr "cat") None None
                    (Some (ValidatorArray
                             [VStr "cat"; VStr "dog"; VStr "bird"])))
                 (VStr "dinosaur")
                 (activate
                    (mkDef "val" (VStr "cat") None None
                       (Some (ValidatorArray
                                [VStr "cat"; VStr "dog"; VStr "bird"])))
                    "?val=dog&color=teal" [])
                 [] (new_scope "?val=dog&color=teal"))))
  = ([], mkScope "?val=dog&color=teal" None ["color=teal"]).
Proof.
  split; [apply wf_nil|].
  apply (default_value_is_dropped
           (mkDef "val" (VStr "cat") None None
              (Some (ValidatorArray [VStr "cat"; VStr "dog"; VStr "bird"])))
           (VStr "dinosaur")
           (activate
              (mkDef "val" (VStr "cat") None None
                 (Some (ValidatorArray
                          [VStr "cat"; VStr "dog"; VStr "bird"])))
              "?val=dog&color=teal" [])
           [] (new_scope "?val=dog&color=teal") wf_nil eq_refl).
Defined.

(** C3, as stated, fails when the default is an object and the
    definition has no dehydrator: another object with the same content
    is equal to the default by value, is not [===] to it, and is
    encoded under the key. *)
Lemma deep_equal_object_is_encoded :
  let def := mkDef "val" (VObj 1 [("count", VNum 1)]) None None None in
  let v := VObj 2 [("count", VNum 1)] in
  let r := setValue def v (activate def "?val=cat" []) [] (new_scope "?val=cat") in
  isEqualObj v (default def) = true /\
  elapse COMMIT_DELAY (fst (snd r)) (snd (snd r))
  = ([], mkScope "?val=cat" None ["val%5Bcount%5D=1"]) /\
  "val" ∈ Qs.encoded_keys (qsObject "?val=cat" (fst (snd r))).
Proof.
  split; [reflexivity|]. split; [reflexivity|]. apply list_elem_of_here.
Qed.

(** * The older source has no gate *)

(** In the older JavaScript source a location change replaces the local
    state of a mounted binding whatever the commit queue holds. *)
Lemma legacy_effect_ignores_queue (def : QsStateDefinition) (search : string)
  (b : binding) :
  mounted b = true ->
  isEqualObj (getValueFromURL def search) (valueState b) = false ->
  Legacy.run_effect def search b = SetValueState (getValueFromURL def search).
Proof.
  intros Hm Hne. unfold Legacy.run_effect. now rewrite Hm, Hne.
Qed.

(** * Value equality by JSON text *)


Section JsonText.

#[local] Arguments String.append !_ _ / : simpl nomatch.

Lemma join_cons sep a l : join sep (a :: l) = a +:+ join_tail sep l.
Proof. destruct l; simpl; [now rewrite sapp_nil_r | reflexivity]. Qed.

Lemma delim_join_tail l c x :
  is_delim c = true -> delim (join_tail "," l +:+ String c x).
Proof. intros Hc. destruct l; simpl; [assumption | reflexivity]. Qed.

(** *** Numerals *)

Lemma numeric_uint d : numeric (NilEmpty.string_of_uint d) = true.
Proof. induction d; simpl; assumption || reflexivity. Qed.

Lemma numeric_nilzero d : numeric (NilZero.string_of_uint d) = true.
Proof. destruct d; try apply (numeric_uint (_ _)); reflexivity. Qed.

Lemma numeric_string_of_Z n : numeric (string_of_Z n) = true.
Proof.
  unfold string_of_Z. destruct (Z.to_int n) as [d|d]; simpl.
  - apply numeric_nilzero.
  - apply numeric_nilzero.
Qed.

Lemma nilzero_head d : exists c r, NilZero.string_of_uint d = String c r.
Proof. destruct d; simpl; eauto. Qed.

Lemma string_of_Z_head n :
  exists c r, string_of_Z n = String c r /\ is_numchar c = true.
Proof.
  pose proof (numeric_string_of_Z n) as Hnum.
  assert (exists c r, string_of_Z n = String c r) as (c & r & E).
  { unfold string_of_Z. destruct (Z.to_int n) as [d|d]; simpl;
      [apply nilzero_head | eauto]. }
  exists c, r. split; [assumption|]. rewrite E in Hnum. simpl in Hnum.
  now apply andb_true_iff in Hnum as [? _].
Qed.

Lemma delim_not_numchar c : is_delim c = true -> is_numchar c = false.
Proof.
  unfold is_delim. rewrite !orb_true_iff, !Ascii.eqb_eq.
  intros [[->| ->]| ->]; reflexivity.
Qed.

Lemma numeric_tight s : forall s' x y,
  numeric s = true -> numeric s' = true -> delim x -> delim y ->
  s +:+ x = s' +:+ y -> s = s' /\ x = y.
Proof.
  induction s as [|c s IH]; intros [|c' s'] x y Hs Hs' Hx Hy E; simpl in *.
  - now split.
  - subst x. simpl in Hx. apply delim_not_numchar in Hx.
    apply andb_true_iff in Hs' as [Hc' _]. congruence.
  - subst y. simpl in Hy. apply delim_not_numchar in Hy.
    apply andb_true_iff in Hs as [Hc _]. congruence.
  - injection E as -> E. apply andb_true_iff in Hs as [_ Hs].
    apply andb_true_iff in Hs' as [_ Hs'].
    destruct (IH s' x y Hs Hs' Hx Hy E) as [-> ->]. now split.
Qed.

(** *** Quoted strings *)

Lemma unescape1_escape c r :
  unescape1 (json_escape_char c +:+ r) = Some (c, r).
Proof.
  destruct c as [[] [] [] [] [] [] [] []]; reflexivity.
Qed.

Lemma escape_tight s : forall s' x y,
  json_escape s +:+ String dquote x = json_escape s' +:+ String dquote y ->
  s = s' /\ x = y.
Proof.
  induction s as [|c s IH]; intros [|c' s'] x y E.
  - simpl in E. injection E as ->. now split.
  - apply (f_equal unescape1) in E. simpl json_escape in E.
    rewrite sapp_assoc, unescape1_escape in E. simpl in E. discriminate.
  - apply (f_equal unescape1) in E. simpl json_escape in E.
    rewrite sapp_assoc, unescape1_escape in E. simpl in E. discriminate.
  - apply (f_equal unescape1) in E. simpl json_escape in E.
    rewrite !sapp_assoc, !unescape1_escape in E.
    injection E as -> E. destruct (IH s' x y E) as [-> ->]. now split.
Qed.

Lemma json_quote_tight s s' x y :
  json_quote s +:+ x = json_quote s' +:+ y -> s = s' /\ x = y.
Proof.
  unfold json_quote. simpl. rewrite !sapp_assoc. simpl.
  intros E. injection E as E. now apply escape_tight.
Qed.

(** *** Every text starts with the mark of its kind *)

Lemma ser_head v :
  exists c r, ser v = String c r /\ kind_of_char c = Some (kind_of v).
Proof.
  destruct v as [| |b|n|s|r items|r props|r]; unfold ser; simpl;
    try (eexists _, _; split; reflexivity).
  - destruct b; eexists _, _; split; reflexivity.
  - destruct (string_of_Z_head n) as (c & t & E & Hc). exists c, t.
    split; [assumption|]. unfold kind_of_char. now rewrite Hc.
Qed.

Lemma same_kind v v' x y : ser v +:+ x = ser v' +:+ y -> kind_of v = kind_of v'.
Proof.
  destruct (ser_head v) as (c & r & E & Hc).
  destruct (ser_head v') as (c' & r' & E' & Hc').
  rewrite E, E'. simpl. intros H. injection H as -> _. congruence.
Qed.

Lemma ser_not_closing v c x t :
  is_delim c = true -> String c x <> ser v +:+ t.
Proof.
  intros Hc E. destruct (ser_head v) as (c' & r & E' & Hk).
  rewrite E' in E. simpl in E. injection E as <- _.
  revert Hc Hk. unfold is_delim. rewrite !orb_true_iff, !Ascii.eqb_eq.
  intros [[->| ->]| ->]; discriminate.
Qed.

(** *** Arrays and objects *)

Lemma join_tail_tight l l' c x y :
  is_delim c = true -> Ascii.eqb c "," = false ->
  join_tail "," l +:+ String c x = join_tail "," l' +:+ String c y ->
  (l = [] /\ l' = [] /\ x = y) \/
  join "," l +:+ String c x = join "," l' +:+ String c y.
Proof.
  intros Hc Hcomma E. destruct l as [|a l], l' as [|a' l'].
  - simpl in E. injection E as ->. now left.
  - simpl in E. injection E as -> _. now rewrite Ascii.eqb_refl in Hcomma.
  - simpl in E. injection E as <- _. now rewrite Ascii.eqb_refl in Hcomma.
  - right. unfold join_tail in E. rewrite !sapp_assoc in E.
    now apply String.app_inj in E.
Qed.

Lemma items_tight items :
  Forall (fun e => tight (ser e)) items ->
  forall items' x y,
    join "," (map ser items) +:+ String "]" x
    = join "," (map ser items') +:+ String "]" y ->
    map ser items = map ser items' /\ x = y.
Proof.
  induction 1 as [|e t He Ht IH]; intros [|e' t'] x y E.
  - simpl in E. injection E as ->. now split.
  - exfalso. cbn [map] in E. rewrite join_cons, sapp_assoc in E.
    simpl in E. now apply ser_not_closing in E.
  - exfalso. cbn [map] in E. rewrite join_cons, sapp_assoc in E.
    simpl in E. symmetry in E. now apply ser_not_closing in E.
  - cbn [map] in E |- *. rewrite !join_cons, !sapp_assoc in E.
    apply He in E as [Ehead Etail]; try now apply delim_join_tail.
    rewrite Ehead.
    apply join_tail_tight in Etail as [(E1 & E2 & ->)|Etail]; try reflexivity.
    + now rewrite E1, E2.
    + apply IH in Etail as [-> ->]. now split.
Qed.

Lemma entries_members props :
  flat_map (fun p => match JSON_stringify (snd p) with
                     | Some s => [json_quote (fst p) +:+ ":" +:+ s]
                     | None => []
                     end) props
  = map render_member (members props).
Proof.
  unfold members. induction props as [|[k v] rest IH]; [reflexivity|].
  cbn [flat_map fst snd]. rewrite IH, map_app. now destruct (JSON_stringify v).
Qed.


Lemma members_are_texts props :
  Forall (fun m => exists v', snd m = ser v') (members props).
Proof.
  unfold members. induction props as [|[k v] rest IH]; [constructor|].
  cbn [flat_map fst snd].
  destruct (JSON_stringify v) as [s|] eqn:E; [|assumption].
  constructor; [|assumption]. exists v. unfold ser. now rewrite E.
Qed.

Lemma members_tight_texts props :
  Forall (fun p => tight (ser (snd p))) props ->
  Forall (fun m => tight (snd m)) (members props).
Proof.
  unfold members. induction 1 as [|[k v] rest Hv Hrest IH]; [constructor|].
  cbn [flat_map fst snd] in *.
  destruct (JSON_stringify v) as [s|] eqn:E; [|assumption].
  constructor; [|assumption]. unfold ser in Hv. now rewrite E in Hv.
Qed.

Lemma members_tight m1 :
  Forall (fun m => tight (snd m)) m1 ->
  forall m2 x y,
    Forall (fun m => exists v', snd m = ser v') m2 ->
    join "," (map render_member m1) +:+ String "}" x
    = join "," (map render_member m2) +:+ String "}" y ->
    m1 = m2 /\ x = y.
Proof.
  induction 1 as [|[k s] t Hs Ht IH]; intros [|[k' s'] t'] x y Htexts E.
  - simpl in E. injection E as ->. now split.
  - exfalso. cbn [map] in E. rewrite join_cons in E.
    unfold render_member, json_quote in E. simpl in E. discriminate.
  - exfalso. cbn [map] in E. rewrite join_cons in E.
    unfold render_member, json_quote in E. simpl in E. discriminate.
  - inversion Htexts as [|? ? [v' Hv'] Htexts']; subst. simpl in Hv'.
    cbn [map] in E. rewrite !join_cons in E. unfold render_member in E.
    cbn [fst snd] in E. rewrite !sapp_assoc in E.
    apply json_quote_tight in E as [-> E]. simpl in E. injection E as E.
    simpl in Hs. rewrite Hv' in E.
    apply Hs in E as [Ehead Etail]; try now apply delim_join_tail.
    rewrite Hv', Ehead.
    apply join_tail_tight in Etail as [(E1 & E2 & ->)|Etail]; try reflexivity.
    + destruct t; [|discriminate E1]. destruct t'; [|discriminate E2].
      now split.
    + apply IH in Etail as [-> ->]; [now split | assumption].
Qed.

(** Every text [JSON.stringify] writes is tight. *)
Lemma tight_ser v : tight (ser v).
Proof.
  induction v as [| |b|n|s|r items IH|r props IH|r] using value_ind_nested;
    intros v' x y Hx Hy E; pose proof (same_kind _ _ _ _ E) as Hk;
    destruct v' as [| |b'|n'|s'|r' items'|r' props'|r']; try discriminate Hk;
    try (unfold ser in E |- *; simpl in E |- *; injection E as ->; now split).
  - destruct b, b'; unfold ser in E |- *; simpl in E |- *;
      try discriminate E; injection E as ->; now split.
  - unfold ser in E |- *. simpl JSON_stringify in E |- *.
    now apply numeric_tight; try apply numeric_string_of_Z.
  - unfold ser in E |- *. simpl JSON_stringify in E |- *.
    apply json_quote_tight in E as [-> ->]. now split.
  - unfold ser in E |- *. simpl JSON_stringify in E |- *.
    change (map (fun e => match JSON_stringify e with
                          | Some s => s | None => "null" end))
      with (map ser) in E |- *.
    simpl in E. injection E as E. rewrite !sapp_assoc in E. simpl in E.
    apply items_tight in E as [-> ->]; [now split | assumption].
  - unfold ser in E |- *. simpl JSON_stringify in E |- *.
    rewrite !entries_members in E |- *.
    simpl in E. injection E as E. rewrite !sapp_assoc in E. simpl in E.
    apply members_tight in E as [-> ->];
      [now split | now apply members_tight_texts | apply members_are_texts].
Qed.


(** References do not show in the text. *)
Lemma JSON_stringify_erase_refs v :
  JSON_stringify (erase_refs v) = JSON_stringify v.
Proof.
  induction v as [| |b|n|s|r items IH|r props IH|r] using value_ind_nested;
    try reflexivity.
  - change (Some ("[" +:+ join "," (map ser (map erase_refs items)) +:+ "]")
            = Some ("[" +:+ join "," (map ser items) +:+ "]")).
    assert (map ser (map erase_refs items) = map ser items) as ->;
      [|reflexivity].
    induction IH as [|e t He Ht IHt]; [reflexivity|].
    cbn [map]. rewrite IHt. unfold ser at 1 3. now rewrite He.
  - cbn [erase_refs JSON_stringify].
    assert (forall l,
              Forall (fun p => JSON_stringify (erase_refs (snd p))
                               = JSON_stringify (snd p)) l ->
              flat_map (fun p => match JSON_stringify (snd p) with
                                 | Some s => [json_quote (fst p) +:+ ":" +:+ s]
                                 | None => []
                                 end)
                (map (fun p => (fst p, erase_refs (snd p))) l)
              = flat_map (fun p => match JSON_stringify (snd p) with
                                   | Some s => [json_quote (fst p) +:+ ":" +:+ s]
                                   | None => []
                                   end) l) as Hflat.
    { induction 1 as [|[k e] t He Ht IHt]; [reflexivity|].
      cbn [map flat_map fst snd] in *. now rewrite He, IHt. }
    now rewrite Hflat.
Qed.

End JsonText.



(** * The queue of every reachable state is well-formed *)

Section Invariant.

Lemma wf_storeInURL k v q sc : wf_obj (fst (storeInURL k v q sc)).
Proof. simpl. apply wf_set, wf_spread, wf_nil. Qed.

Lemma wf_tick1 q sc : wf_obj q -> wf_obj (fst (tick1 q sc)).
Proof.
  intros Hwf. unfold tick1. destruct (timer sc) as [[|[|n]]|]; simpl;
    assumption || apply wf_nil.
Qed.

Lemma wf_tick1_all scs : forall q, wf_obj q -> wf_obj (fst (tick1_all q scs)).
Proof.
  induction scs as [|sc rest IH]; simpl; intros q Hwf; [assumption|].
  apply IH. now apply wf_tick1.
Qed.

Lemma wf_world_elapse dt : forall w,
  wf_obj (commitQueue w) -> wf_obj (commitQueue (world_elapse dt w)).
Proof.
  induction dt as [|n IH]; simpl; intros w Hwf; [assumption|].
  apply IH. simpl. now apply wf_tick1_all.
Qed.

Lemma wf_step w w' : wf_obj (commitQueue w) -> step w w' -> wf_obj (commitQueue w').
Proof.
  intros Hwf Hstep. destruct Hstep as [search w|i k v w|i search w|dt w].
  - exact Hwf.
  - unfold on_scope. destruct (scopes w !! i); [|assumption].
    apply wf_storeInURL.
  - unfold on_scope. now destruct (scopes w !! i).
  - now apply wf_world_elapse.
Qed.

(** Whatever the scopes and their bindings have done, the commit queue
    is an object JavaScript can have built. *)
Lemma reachable_wf w : reachable w -> wf_obj (commitQueue w).
Proof.
  induction 1 as [|w w' _ IH Hstep]; [apply wf_nil|].
  now apply (wf_step w w').
Qed.

End Invariant.

(** * The scenarios of the test suite *)

Section TestSuite.

Import Tests.

(** One component: its scope, then one binding, mounted. *)
Let mount (def : QsStateDefinition) (search : string) : binding * (jsobj * scope) :=
  (activate def search [], ([], new_scope search)).

Let set (def : QsStateDefinition) (v : value) (st : binding * (jsobj * scope))
  : binding * (jsobj * scope) :=
  setValue def v (fst st) (fst (snd st)) (snd (snd st)).

Let wait (dt : nat) (st : binding * (jsobj * scope)) : binding * (jsobj * scope) :=
  (fst st, elapse dt (fst (snd st)) (snd (snd st))).

Let commits (st : binding * (jsobj * scope)) : list string :=
  committed (snd (snd st)).

Let current (st : binding * (jsobj * scope)) : value := valueState (fst st).

Example parses_value_from_URL :
  current (mount (plain VNull) "?something=else&val=cat") = VStr "cat".
Proof. reflexivity. Qed.

Example uses_default_when_value_is_not_in_url :
  current (mount (plain (VStr "cat")) "?something=else") = VStr "cat".
Proof. reflexivity. Qed.

Example updates_the_value_when_the_url_changed :
  valueState (rerender (plain VNull) false "?val=dog" []
                (activate (plain VNull) "?something=else&val=cat" []))
  = VStr "dog".
Proof. reflexivity. Qed.

Example uses_validator_array_and_returns_default_when_fails :
  current (mount (mkDef "val" (VStr "ferret") None None
                    (Some (ValidatorArray [VStr "ferret"; VStr "dog"; VStr "bird"])))
             "?val=cat")
  = VStr "ferret".
Proof. reflexivity. Qed.

Example uses_validator_when_setting_new_value :
  let def := mkDef "val" (VStr "cat") None None
               (Some (ValidatorArray [VStr "cat"; VStr "dog"; VStr "bird"])) in
  current (set def (VStr "dinosaur") (mount def "?val=cat")) = VStr "cat".
Proof. reflexivity. Qed.

Example updates_url_after_setting_value :
  let st := set (plain VNull) (VStr "ferret") (mount (plain VNull) "?val=cat") in
  commits st = [] /\
  commits (wait (COMMIT_DELAY / 2) st) = [] /\
  commits (wait COMMIT_DELAY (wait (COMMIT_DELAY / 2) st)) = ["val=ferret"].
Proof. repeat split; reflexivity. Qed.

Example updates_url_once_after_setting_values_within_threshold :
  let st0 := mount (plain VNull) "?val=cat&color=teal" in
  let st1 := wait (COMMIT_DELAY / 2) (set (plain VNull) (VStr "ferret") st0) in
  let st2 := set (mkDef "color" VNull None None None) (VStr "red") st1 in
  commits (wait COMMIT_DELAY st2) = ["val=ferret&color=red"].
Proof. reflexivity. Qed.

Example updates_url_multiple_times_when_setting_values_after_threshold :
  let st0 := mount (plain VNull) "?val=cat&color=teal" in
  let st1 := wait COMMIT_DELAY (set (plain VNull) (VStr "ferret") st0) in
  let st2 := (fst st1, (fst (snd st1),
                        navigate "?val=ferret&color=teal" (snd (snd st1)))) in
  let st3 := set (mkDef "color" VNull None None None) (VStr "red") st2 in
  commits (wait COMMIT_DELAY st3)
  = ["val=ferret&color=teal"; "val=ferret&color=red"].
Proof. reflexivity. Qed.

Example uses_dehydrator_function_to_convert_to_url_value :
  let def := mkDef "val" VNull None
               (Some (fun v => VStr ("mocked-dehydrated--" +:+ interpolate v)))
               None in
  let st := set def (VStr "ferret") (mount def "?val=cat") in
  current st = VStr "ferret" /\
  commits (wait COMMIT_DELAY st) = ["val=mocked-dehydrated--ferret"].
Proof. split; reflexivity. Qed.

Example removes_value_from_url_when_it_matches_default :
  let def := plain (VStr "ferret") in
  let st := set def (VStr "ferret") (mount def "?val=cat") in
  current (mount def "?val=cat") = VStr "cat" /\
  current st = VStr "ferret" /\
  commits (wait COMMIT_DELAY st) = [""].
Proof. repeat split; reflexivity. Qed.

Example removes_value_from_url_keeping_other_values :
  let def := plain (VStr "ferret") in
  let st := set def (VStr "ferret") (mount def "?val=cat&color=teal") in
  commits (wait COMMIT_DELAY st) = ["color=teal"].
Proof. reflexivity. Qed.

Example should_handle_objects_as_default :
  let st0 := mount qsDef "?val=ferret|3" in
  let st1 := set qsDef
               (VObj 3 [("count", VNum 1); ("type", VStr "cat");
                        ("other", VStr "default prop never on URL")]) st0 in
  erase_refs (current st0)
  = erase_refs (VObj 0 [("count", VNum 3); ("type", VStr "ferret");
                        ("other", VStr "default prop never on URL")]) /\
  commits (wait COMMIT_DELAY st1) = [""].
Proof. split; reflexivity. Qed.

End TestSuite.

(** * Reading back what was committed *)

Section ReadBack.

#[local] Arguments String.append !_ _ / : simpl nomatch.
#[local] Arguments Ascii.eqb : simpl never.

Lemma obj_get_parse_values_fold k parts : forall acc,
  obj_get (fold_left
             (fun obj part =>
                let kv := Qs.parse_part part in
                match obj_get obj (fst kv) with
                | Some old => obj_set (fst kv) (Qs.combine old (VStr (snd kv))) obj
                | None => obj_set (fst kv) (VStr (snd kv)) obj
                end) parts acc) k
  = collect k parts (obj_get acc k).
Proof.
  induction parts as [|part rest IH]; intros acc; [reflexivity|].
  cbn [fold_left collect]. rewrite IH.
  destruct (String.eqb_spec (fst (Qs.parse_part part)) k) as [E|Hne].
  - rewrite E. destruct (obj_get acc k); now rewrite obj_get_set_eq.
  - destruct (obj_get acc (fst (Qs.parse_part part)));
      rewrite obj_get_set_ne by congruence; reflexivity.
Qed.

Lemma collect_skip k parts cur :
  Forall (fun part => fst (Qs.parse_part part) <> k) parts ->
  collect k parts cur = cur.
Proof.
  revert cur. induction parts as [|part rest IH]; intros cur Hall; [reflexivity|].
  inversion Hall as [|? ? Hne Hrest]; subst. simpl.
  apply String.eqb_neq in Hne. rewrite Hne. now apply IH.
Qed.

Lemma collect_app k l1 l2 cur :
  collect k (l1 ++ l2) cur = collect k l2 (collect k l1 cur).
Proof.
  revert cur. induction l1 as [|part rest IH]; intros cur; [reflexivity|].
  simpl. destruct (String.eqb _ k); apply IH.
Qed.

Lemma obj_get_parse_fold k l : forall acc,
  NoDup (keys l) ->
  obj_get (fold_left
             (fun obj p => if Qs.accepted_key (fst p)
                           then obj_set (fst p) (snd p) obj else obj) l acc) k
  = match (if Qs.accepted_key k then obj_get l k else None) with
    | Some v => Some v
    | None => obj_get acc k
    end.
Proof.
  induction l as [|[k0 v0] rest IH]; intros acc Hnd.
  - simpl. now destruct (Qs.accepted_key k).
  - simpl in Hnd. apply NoDup_cons in Hnd as [Hnin Hnd]. cbn [fold_left fst snd].
    rewrite IH by assumption. simpl.
    destruct (String.eqb_spec k0 k) as [->|Hne].
    + apply obj_get_None in Hnin. rewrite Hnin.
      destruct (Qs.accepted_key k); [|reflexivity]. apply obj_get_set_eq.
    + destruct (if Qs.accepted_key k then obj_get rest k else None);
        [reflexivity|].
      destruct (Qs.accepted_key k0); [|reflexivity].
      apply obj_get_set_ne. congruence.
Qed.

(** [qs.parse] keeps the entries of [parseValues] whose key it
    accepts. *)
Lemma obj_get_parse str k :
  obj_get (Qs.parse str) k
  = if Qs.accepted_key k then obj_get (Qs.parse_values str) k else None.
Proof.
  unfold Qs.parse. rewrite obj_get_parse_fold by apply wf_parse_values.
  simpl. now destruct (if Qs.accepted_key k then _ else _).
Qed.

Lemma obj_get_parse_values str k :
  obj_get (Qs.parse_values str) k = collect k (parameters str) None.
Proof. unfold Qs.parse_values. now rewrite obj_get_parse_values_fold. Qed.

Lemma obj_get_split o k v :
  obj_get o k = Some v ->
  exists o1 o2, o = o1 ++ (k, v) :: o2 /\ k ∉ keys o1.
Proof.
  induction o as [|[k0 v0] rest IH]; simpl; [discriminate|].
  destruct (String.eqb_spec k0 k) as [->|Hne].
  - intros [= ->]. exists [], rest. split; [reflexivity | apply not_elem_of_nil].
  - intros H. destruct (IH H) as (o1 & o2 & -> & Hnin).
    exists ((k0, v0) :: o1), o2. split; [reflexivity|].
    simpl. rewrite not_elem_of_cons. split; congruence.
Qed.

Lemma stringify_pairs_app o1 o2 :
  Qs.stringify_pairs (o1 ++ o2) = Qs.stringify_pairs o1 ++ Qs.stringify_pairs o2.
Proof. unfold Qs.stringify_pairs. apply flat_map_app. Qed.

Lemma encoded_keys_keys o k : k ∈ Qs.encoded_keys o -> k ∈ keys o.
Proof.
  intros Hk. apply encoded_keys_not_null in Hk as (v & Hin & _).
  unfold keys. apply list_elem_of_fmap. now exists (k, v).
Qed.

(** The pairs of the other properties are not read as pairs of a flat
    key [k]. *)
Lemma other_pairs_skip o k :
  flat_key k = true -> k ∉ keys o ->
  Forall (fun part => fst (Qs.parse_part part) <> k) (Qs.stringify_pairs o).
Proof.
  intros Hflat Hnin. eapply Forall_impl; [apply stringify_pairs_under|].
  intros pr (k' & Hk' & suffix & s & -> & Hsuffix). rewrite parse_part_pair.
  simpl. intros E. destruct Hsuffix as [->|(r & ->)].
  - rewrite sapp_nil_r in E. subst k'. now apply Hnin, encoded_keys_keys.
  - unfold flat_key in Hflat. rewrite <- E, has_char_sapp in Hflat.
    simpl in Hflat. now rewrite orb_true_r in Hflat.
Qed.

Lemma scalar_pairs k v s :
  scalar_text v = Some s ->
  Qs.stringify_pairs [(k, v)] = [Qs.pair_string k s].
Proof.
  unfold Qs.stringify_pairs. destruct v; simpl; intros [= <-]; reflexivity.
Qed.

Lemma split_on_stringify o :
  Qs.stringify_pairs o <> [] ->
  Qs.split_on "&" (Qs.stringify o) = Qs.stringify_pairs o.
Proof.
  intros Hne. unfold Qs.stringify. apply split_on_join; [assumption|].
  eapply Forall_impl; [apply stringify_pairs_under|].
  intros pr (k' & _ & suffix & s & -> & _). now apply pair_string_no.
Qed.

Lemma stringify_no_question o : has_char "?" (Qs.stringify o) = false.
Proof.
  unfold Qs.stringify. apply has_char_join; [reflexivity|].
  eapply Forall_impl; [apply stringify_pairs_under|].
  intros pr (k' & _ & suffix & s & -> & _). now apply pair_string_no.
Qed.

Lemma parameters_stringify o :
  Qs.stringify_pairs o <> [] ->
  length (Qs.stringify_pairs o) <= Qs.parameterLimit ->
  parameters (Qs.stringify o) = Qs.stringify_pairs o.
Proof.
  intros Hne Hlen. unfold parameters.
  rewrite strip_query_prefix_id by apply stringify_no_question.
  rewrite split_on_stringify by assumption. now apply firstn_all2.
Qed.

End ReadBack.

Lemma read_back_scalar (o : jsobj) (k : string) (v : value) (s : string) :
  wf_obj o -> flat_obj o = true ->
  obj_get o k = Some v -> scalar_text v = Some s ->
  Qs.accepted_key k = true ->
  length (Qs.stringify_pairs o) <= Qs.parameterLimit ->
  obj_get (Qs.parse (Qs.stringify o)) k = Some (VStr s).
Proof.
  intros Hwf Hflato Hget Htext Hacc Hlen.
  assert (flat_key k = true) as Hflat.
  { unfold flat_obj in Hflato. rewrite forallb_forall in Hflato.
    apply Hflato, list_elem_of_In, has_elem_of. now apply (obj_get_Some_has o k v). }
  rewrite obj_get_parse, Hacc, obj_get_parse_values.
  destruct (obj_get_split o k v Hget) as (o1 & o2 & -> & Hnin1).
  assert (k ∉ keys o2) as Hnin2.
  { destruct Hwf as [Hnd _]. unfold keys in Hnd. rewrite map_app in Hnd.
    apply NoDup_app in Hnd as (_ & _ & Hnd). simpl in Hnd.
    now apply NoDup_cons in Hnd as [? _]. }
  assert (Qs.stringify_pairs (o1 ++ (k, v) :: o2)
          = Qs.stringify_pairs o1 ++ [Qs.pair_string k s] ++ Qs.stringify_pairs o2)
    as Epairs.
  { change ((k, v) :: o2) with ([(k, v)] ++ o2).
    now rewrite !stringify_pairs_app, (scalar_pairs k v s Htext). }
  rewrite parameters_stringify; [|rewrite Epairs; now destruct (Qs.stringify_pairs o1)|assumption].
  rewrite Epairs, !collect_app.
  rewrite (collect_skip k (Qs.stringify_pairs o1)) by now apply other_pairs_skip.
  simpl. rewrite parse_part_pair. simpl. rewrite String.eqb_refl.
  now apply collect_skip, other_pairs_skip.
Qed.

(** X1.  The location [commit] encodes decodes back to the overlay,
    key by key: on the flat fragment, and with no more pairs than
    [qs.parse] reads, a key that [qs.parse] accepts is read from the
    committed location as the text of the string, number or boolean
    queued for it, is not found when [null] is queued for it, and is
    read as the string the current location had for it when nothing is
    queued for it. *)
Theorem commit_decodes_to_overlay (search : string) (queue : jsobj)
  (k : string) :
  wf_obj queue -> flat_obj (qsObject search queue) = true ->
  Qs.accepted_key k = true ->
  length (Qs.stringify_pairs (qsObject search queue)) <= Qs.parameterLimit ->
  (forall v s, obj_get queue k = Some v -> scalar_text v = Some s ->
     obj_get (Qs.parse (Qs.stringify (qsObject search queue))) k
     = Some (VStr s)) /\
  (obj_get queue k = Some VNull ->
     obj_get (Qs.parse (Qs.stringify (qsObject search queue))) k = None) /\
  (forall s, obj_get queue k = None ->
     obj_get (Qs.parse search) k = Some (VStr s) ->
     obj_get (Qs.parse (Qs.stringify (qsObject search queue))) k
     = Some (VStr s)).
Proof.
  intros Hwf Hflat Hacc Hlen. split; [|split].
  - intros v s Hget Htext.
    apply (read_back_scalar _ k v s); try assumption; [apply wf_qsObject|].
    now rewrite obj_get_qsObject, Hget.
  - intros Hget.
    assert (obj_get (qsObject search queue) k = Some VNull) as Hm
        by now rewrite obj_get_qsObject, Hget.
    apply not_encoded_not_decoded.
    + unfold flat_obj in Hflat. rewrite forallb_forall in Hflat.
      apply Hflat, list_elem_of_In, has_elem_of.
      now apply (obj_get_Some_has _ k VNull).
    + now apply null_key_not_encoded; [apply wf_qsObject|].
  - intros s Hget Hloc.
    apply (read_back_scalar _ k (VStr s) s); try assumption;
      [apply wf_qsObject| |reflexivity].
    now rewrite obj_get_qsObject, Hget.
Qed.

Lemma commit_decodes_to_overlay_witness :
  wf_obj [("val", VStr "a b&c"); ("n", VNum 10); ("color", VNull)] /\
  obj_get (Qs.parse (Qs.stringify
                       (qsObject "?color=teal&type=3"
                          [("val", VStr "a b&c"); ("n", VNum 10);
                           ("color", VNull)]))) "n"
  = Some (VStr "10").
Proof.
  assert (wf_obj [("val", VStr "a b&c"); ("n", VNum 10); ("color", VNull)])
    as Hwf by (apply wf_objb_sound; reflexivity).
  split; [exact Hwf|].
  refine (proj1 (commit_decodes_to_overlay "?color=teal&type=3" _ "n" Hwf
                   eq_refl eq_refl _) (VNum 10) "10" eq_refl eq_refl).
  simpl. unfold Qs.parameterLimit. lia.
Defined.

Section Canonical.

#[local] Arguments String.append !_ _ / : simpl nomatch.
#[local] Arguments Ascii.eqb : simpl never.

Lemma wf_filter (f : string * value -> bool) o :
  wf_obj o -> wf_obj (List.filter f o).
Proof.
  induction o as [|[k v] rest IH]; simpl; intros Hwf; [assumption|].
  apply wf_cons_inv in Hwf as (Hnin & Hall & Hwf).
  destruct (f (k, v)); [|now apply IH].
  assert (forall x, x ∈ keys (List.filter f rest) -> x ∈ keys rest) as Hsub.
  { intros x Hx. unfold keys in Hx |- *. apply list_elem_of_fmap in Hx as (p & -> & Hp).
    apply list_elem_of_fmap. exists p. split; [reflexivity|].
    apply list_elem_of_In, filter_In in Hp as [Hp _]. now apply list_elem_of_In. }
  apply wf_cons; [| |now apply IH].
  - intros Hin. now apply Hnin, Hsub.
  - apply Forall_forall. intros x Hx. rewrite Forall_forall in Hall.
    now apply Hall, Hsub.
Qed.

Lemma plain_pairs o :
  forallb plain_entry o = true ->
  Qs.stringify_pairs o
  = map (fun p => Qs.pair_string (fst p)
                    (match snd p with VStr s => s | _ => "" end)) (drop_nulls o).
Proof.
  unfold Qs.stringify_pairs, drop_nulls.
  induction o as [|[k v] rest IH]; [reflexivity|].
  cbn [forallb flat_map List.filter fst snd]. intros H.
  apply andb_true_iff in H as [Hp Hrest]. rewrite (IH Hrest).
  unfold plain_entry in Hp. simpl in Hp. destruct v; try discriminate Hp; reflexivity.
Qed.

Lemma parse_values_step_pairs o : forall acc,
  NoDup (keys o) -> (forall k, k ∈ keys o -> k ∉ keys acc) ->
  Forall (fun p => exists s, snd p = VStr s) o ->
  fold_left
    (fun obj part =>
       let kv := Qs.parse_part part in
       match obj_get obj (fst kv) with
       | Some old => obj_set (fst kv) (Qs.combine old (VStr (snd kv))) obj
       | None => obj_set (fst kv) (VStr (snd kv)) obj
       end)
    (map (fun p => Qs.pair_string (fst p)
                     (match snd p with VStr s => s | _ => "" end)) o) acc
  = obj_spread acc o.
Proof.
  unfold obj_spread.
  induction o as [|[k v] rest IH]; intros acc Hnd Hfresh Hstr; [reflexivity|].
  simpl in Hnd. apply NoDup_cons in Hnd as [Hnin Hnd].
  inversion Hstr as [|? ? [s Hs] Hstr']; subst. simpl in Hs. subst v.
  cbn [map fold_left fst snd]. rewrite parse_part_pair. cbn [fst snd].
  assert (obj_get acc k = None) as ->
      by (apply obj_get_None, Hfresh, list_elem_of_here).
  apply IH; [assumption | | assumption].
  intros x Hx Hin. apply keys_set_elem_of in Hin as [->|Hin]; [contradiction|].
  apply (Hfresh x); [now apply list_elem_of_further | assumption].
Qed.

Lemma parse_fold_accepted o : forall acc,
  forallb (fun p => Qs.accepted_key (fst p)) o = true ->
  fold_left (fun obj p => if Qs.accepted_key (fst p)
                          then obj_set (fst p) (snd p) obj else obj) o acc
  = obj_spread acc o.
Proof.
  unfold obj_spread. induction o as [|[k v] rest IH]; intros acc H; [reflexivity|].
  simpl in H. apply andb_true_iff in H as [Hk Hrest].
  cbn [fold_left fst snd]. rewrite Hk. now apply IH.
Qed.

Lemma drop_nulls_strings o :
  forallb plain_entry o = true ->
  Forall (fun p => exists s, snd p = VStr s) (drop_nulls o) /\
  forallb (fun p => Qs.accepted_key (fst p)) (drop_nulls o) = true.
Proof.
  unfold drop_nulls. induction o as [|[k v] rest IH]; [now split|].
  cbn [forallb]. intros H. apply andb_true_iff in H as [Hp Hrest].
  destruct (IH Hrest) as [IH1 IH2]. unfold plain_entry in Hp. simpl in Hp.
  destruct v; try discriminate Hp; simpl; [now split|].
  apply andb_true_iff in Hp as [_ Hacc]. split.
  - constructor; [simpl; eauto | assumption].
  - simpl. now rewrite Hacc.
Qed.

Lemma length_drop_nulls o : length (drop_nulls o) <= length o.
Proof. apply filter_length_le. Qed.

End Canonical.

(** X2.  A merged mapping that holds only strings and [null]s, under
    flat keys that [qs.parse] accepts, and no more of them than
    [qs.parse] reads, is decoded from its committed encoding exactly,
    keys in the same order, without the [null] entries: the committed
    location is a faithful and canonical record of the mapping. *)
Theorem commit_decodes_to_mapping (o : jsobj) :
  wf_obj o -> forallb plain_entry o = true ->
  length o <= Qs.parameterLimit ->
  Qs.parse (Qs.stringify o) = drop_nulls o /\
  Qs.stringify (Qs.parse (Qs.stringify o)) = Qs.stringify o.
Proof.
  intros Hwf Hplain Hlen.
  assert (wf_obj (drop_nulls o)) as Hwf' by now apply wf_filter.
  destruct (drop_nulls_strings o Hplain) as [Hstr Hacc].
  assert (Qs.parse (Qs.stringify o) = drop_nulls o) as Eparse.
  { destruct (drop_nulls o) as [|p rest] eqn:E.
    - unfold Qs.stringify. rewrite (plain_pairs o Hplain), E. reflexivity.
    - rewrite <- E in *. unfold Qs.parse, Qs.parse_values.
      fold (parameters (Qs.stringify o)).
      rewrite parameters_stringify.
      + rewrite (plain_pairs o Hplain).
        rewrite parse_values_step_pairs;
          [|apply Hwf'|intros k _; apply not_elem_of_nil|assumption].
        rewrite (obj_spread_nil _ Hwf').
        rewrite parse_fold_accepted by assumption.
        now apply obj_spread_nil.
      + rewrite (plain_pairs o Hplain), E. discriminate.
      + rewrite (plain_pairs o Hplain), length_map.
        pose proof (length_drop_nulls o). lia. }
  split; [assumption|]. rewrite Eparse.
  unfold Qs.stringify. f_equal. unfold Qs.stringify_pairs, drop_nulls.
  clear. induction o as [|[k v] rest IH]; [reflexivity|].
  cbn [List.filter flat_map fst snd].
  destruct (Qs.is_null v) eqn:E; simpl; [assumption|].
  now rewrite E, IH.
Qed.

Lemma commit_decodes_to_mapping_witness :
  wf_obj [("val", VStr "ferret|3"); ("color", VNull); ("q", VStr "")] /\
  Qs.parse (Qs.stringify [("val", VStr "ferret|3"); ("color", VNull);
                          ("q", VStr "")])
  = [("val", VStr "ferret|3"); ("q", VStr "")].
Proof.
  assert (wf_obj [("val", VStr "ferret|3"); ("color", VNull); ("q", VStr "")])
    as Hwf by (apply wf_objb_sound; reflexivity).
  split; [exact Hwf|].
  apply (commit_decodes_to_mapping _ Hwf); [reflexivity|].
  simpl. unfold Qs.parameterLimit. lia.
Defined.

Section SafeOutput.

#[local] Arguments String.append !_ _ / : simpl nomatch.
#[local] Arguments Ascii.eqb : simpl never.

Lemma all_url_chars_sapp a b :
  all_url_chars (a +:+ b) = all_url_chars a && all_url_chars b.
Proof.
  induction a as [|ch a IH]; simpl; [reflexivity|].
  now rewrite IH, andb_assoc.
Qed.

Lemma all_plain_url s : all_plain s = true -> all_url_chars s = true.
Proof.
  induction s as [|a s IH]; simpl; [reflexivity|]. intros H.
  apply andb_true_iff in H as [Ha Hs]. unfold url_char. now rewrite Ha, IH.
Qed.

Lemma all_url_chars_pair k s : all_url_chars (Qs.pair_string k s) = true.
Proof.
  unfold Qs.pair_string. rewrite !all_url_chars_sapp.
  rewrite (all_plain_url (Qs.encode k)) by apply all_plain_encode.
  rewrite (all_plain_url (Qs.encode s)) by apply all_plain_encode.
  reflexivity.
Qed.

Lemma all_url_chars_join parts :
  Forall (fun p => all_url_chars p = true) parts ->
  all_url_chars (join "&" parts) = true.
Proof.
  induction parts as [|p [|q t] IH]; intros Hall; [reflexivity| |].
  - now inversion Hall.
  - inversion Hall as [|? ? Hp Hrest]; subst.
    change (join "&" (p :: q :: t)) with (p +:+ String "&" (join "&" (q :: t))).
    rewrite all_url_chars_sapp, Hp. simpl. now apply IH.
Qed.

End SafeOutput.

(** X3.  Whatever the location and the queue hold, the search string
    [commit] hands to the commit operation is made only of letters,
    digits, [-], [.], [_], [~], percent escapes, [=] and [&]: it has no
    leading [?], no [#], no space and no raw byte of the values. *)
Theorem committed_search_is_url_safe (search : string) (queue : jsobj) :
  all_url_chars (Qs.stringify (qsObject search queue)) = true /\
  has_char "?" (Qs.stringify (qsObject search queue)) = false /\
  has_char "#" (Qs.stringify (qsObject search queue)) = false /\
  has_char " " (Qs.stringify (qsObject search queue)) = false.
Proof.
  assert (forall o, all_url_chars (Qs.stringify o) = true) as Hall.
  { intros o. unfold Qs.stringify. apply all_url_chars_join.
    eapply Forall_impl; [apply stringify_pairs_under|].
    intros pr (k' & _ & suffix & s & -> & _). apply all_url_chars_pair. }
  assert (forall c o, url_char c = false -> has_char c (Qs.stringify o) = false)
    as Hno.
  { intros c o Hc. specialize (Hall o). induction (Qs.stringify o) as [|a t IH];
      simpl in *; [reflexivity|].
    apply andb_true_iff in Hall as [Ha Ht]. rewrite (IH Ht).
    destruct (Ascii.eqb_spec a c) as [->|]; [congruence | reflexivity]. }
  split; [apply Hall|]. repeat split; now apply Hno.
Qed.

(** * Reading a key the location does not name *)

Section MissingKey.

Lemma get_parse_missing search k :
  Qs.accepted_key k = true ->
  Forall (fun part => fst (Qs.parse_part part) <> k) (parameters search) ->
  get (Qs.parse search) k = VUndefined.
Proof.
  intros Hacc Hall. unfold get.
  rewrite obj_get_parse, obj_get_parse_values, Hacc.
  rewrite collect_skip by assumption.
  now rewrite (not_inherited _ (accepted_not_inherited _ Hacc)).
Qed.

End MissingKey.

(** X4.  On a location of the flat fragment, a key that [qs.parse]
    accepts and that none of the parameters it looks at (the first
    thousand) names is read as absent: the candidate is the hydrator
    applied to [undefined], and a definition with neither hydrator nor
    validator yields its default, wherever else in the location the
    key may be. *)
Theorem unnamed_key_reads_as_absent (def : QsStateDefinition) (search : string) :
  flat_search search = true -> Qs.accepted_key (key def) = true ->
  Forall (fun part => fst (Qs.parse_part part) <> key def) (parameters search) ->
  getValueFromURL def search = read_raw def VUndefined /\
  (hydrator def = None -> validator def = None ->
   getValueFromURL def search = default def).
Proof.
  intros _ Hacc Hall.
  assert (getValueFromURL def search = read_raw def VUndefined) as E.
  { unfold getValueFromURL, read_raw. now rewrite get_parse_missing. }
  split; [exact E|]. intros Hh Hv. rewrite E.
  unfold read_raw, validate, hydrator_of. now rewrite Hh, Hv.
Qed.

Lemma unnamed_key_reads_as_absent_witness :
  flat_search "?something=else" = true /\
  getValueFromURL (mkDef "val" (VStr "cat") None None None) "?something=else"
  = VStr "cat".
Proof.
  split; [reflexivity|].
  apply (unnamed_key_reads_as_absent (mkDef "val" (VStr "cat") None None None)
           "?something=else"); try reflexivity.
  repeat constructor; discriminate.
Defined.

(** * A binding and its own writes *)

Section OwnWrites.

Implicit Types (def : QsStateDefinition) (b : binding) (queue : jsobj)
  (sc : scope).



Lemma setValue_queue def v b queue sc :
  wf_obj queue ->
  fst (snd (setValue def v b queue sc))
  = obj_set (key def)
      (if strict_eq (dehydrator_of def (written def v))
            (dehydrator_of def (default def))
       then VNull else dehydrator_of def (written def v)) queue.
Proof.
  intros Hwf. unfold setValue. cbn [fst snd].
  rewrite storeInURL_queue by assumption. fold (written def v).
  now destruct (strict_eq _ _).
Qed.

Lemma setValue_queued def v b queue sc :
  wf_obj queue ->
  fst (snd (setValue def v b queue sc)) = obj_set (key def) (queued def v) queue.
Proof. apply setValue_queue. Qed.

Lemma setValue_scope def v b queue sc :
  snd (snd (setValue def v b queue sc)) = debounce_call sc.
Proof. reflexivity. Qed.

Lemma setValue_then_quiet def v b queue sc :
  elapse COMMIT_DELAY (fst (snd (setValue def v b queue sc)))
    (snd (snd (setValue def v b queue sc)))
  = ([], mkScope (location sc) None
           (committed sc ++ [next_commit def v b queue sc])).
Proof.
  rewrite (elapse_fire _ _ _ COMMIT_DELAY);
    [reflexivity | reflexivity | unfold COMMIT_DELAY; lia | lia].
Qed.

Lemma getValueFromURL_read_raw def search raw :
  obj_get (Qs.parse search) (key def) = Some raw ->
  getValueFromURL def search = read_raw def raw.
Proof.
  intros H. unfold getValueFromURL, read_raw, get. now rewrite H.
Qed.

End OwnWrites.

(** X5.  What a binding writes, it reads back: when [setValue(v)]
    dehydrates the validated value to a string, number or boolean of
    text [s] that is not the dehydrated default, the search string
    committed after the quiet window is one from which the binding's
    own [read] computes the hydrator applied to [s], validated (on the
    flat fragment, for a key [qs.parse] accepts, within the parameter
    limit). *)
Theorem written_value_is_read_back (def : QsStateDefinition) (v : value)
  (b : binding) (queue : jsobj) (sc : scope) (s : string) :
  wf_obj queue ->
  scalar_text (dehydrator_of def (written def v)) = Some s ->
  strict_eq (dehydrator_of def (written def v))
    (dehydrator_of def (default def)) = false ->
  Qs.accepted_key (key def) = true ->
  flat_obj (qsObject (location sc) (fst (snd (setValue def v b queue sc))))
  = true ->
  length (Qs.stringify_pairs
            (qsObject (location sc) (fst (snd (setValue def v b queue sc)))))
  <= Qs.parameterLimit ->
  elapse COMMIT_DELAY (fst (snd (setValue def v b queue sc)))
    (snd (snd (setValue def v b queue sc)))
  = ([], mkScope (location sc) None
           (committed sc ++ [next_commit def v b queue sc])) /\
  getValueFromURL def (next_commit def v b queue sc) = read_raw def (VStr s).
Proof.
  intros Hwf Htext Hne Hacc Hflat Hlen. split; [apply setValue_then_quiet|].
  apply getValueFromURL_read_raw. unfold next_commit.
  apply (read_back_scalar _ _ (dehydrator_of def (written def v)) s);
    try assumption; [apply wf_qsObject|].
  rewrite setValue_queue, Hne by assumption.
  rewrite obj_get_qsObject by now apply wf_set.
  now rewrite obj_get_set_eq.
Qed.

Lemma written_value_is_read_back_witness :
  wf_obj [] /\
  getValueFromURL (mkDef "val" VNull None None None)
    (next_commit (mkDef "val" VNull None None None) (VStr "a&b=c d")
       (activate (mkDef "val" VNull None None None) "?val=cat&type=3" [])
       [] (new_scope "?val=cat&type=3"))
  = VStr "a&b=c d".
Proof.
  split; [apply wf_nil|].
  refine (proj2 (written_value_is_read_back
                   (mkDef "val" VNull None None None) (VStr "a&b=c d")
                   (activate (mkDef "val" VNull None None None)
                      "?val=cat&type=3" [])
                   [] (new_scope "?val=cat&type=3") "a&b=c d"
                   wf_nil eq_refl eq_refl eq_refl eq_refl _)).
  simpl. unfold Qs.parameterLimit. lia.
Defined.







(** A definition replaced while a write is pending leaves a state the
    new validator rejects and that is not the new default. *)
Example replaced_definition_keeps_state :
  let d1 := mkDef "val" (VStr "cat") None None
              (Some (ValidatorArray [VStr "cat"; VStr "dog"])) in
  let d2 := mkDef "val" (VStr "red") None None
              (Some (ValidatorArray [VStr "red"; VStr "blue"])) in
  let b := rerender d2 true "?val=dog" [("other", VStr "x")]
             (activate d1 "?val=dog" []) in
  binding_trace [d2; d1] b /\
  valueState b = VStr "dog" /\
  validate d2 (valueState b) = false /\
  valueState b <> default d2.
Proof.
  cbv zeta. split; [|split; [reflexivity|split; [reflexivity|discriminate]]].
  apply trace_replace.
  apply (trace_rerender _ [] true "?val=dog" []), trace_first.
Qed.

(** * Commits and writes *)

Section CommitCount.

Implicit Types (q : jsobj) (sc : scope).

Lemma tick1_commits q sc :
  exists new,
    committed (snd (tick1 q sc)) = committed sc ++ new /\
    length new + armed (snd (tick1 q sc)) <= armed sc /\
    location (snd (tick1 q sc)) = location sc.
Proof.
  unfold tick1, armed. destruct (timer sc) as [[|[|n]]|] eqn:E; simpl.
  - eexists [_]. simpl. repeat split; lia.
  - eexists [_]. simpl. repeat split; lia.
  - exists []. rewrite app_nil_r. simpl. repeat split; lia.
  - exists []. rewrite app_nil_r, E. simpl. repeat split; lia.
Qed.

Lemma elapse_commits dt : forall q sc,
  exists new,
    committed (snd (elapse dt q sc)) = committed sc ++ new /\
    length new + armed (snd (elapse dt q sc)) <= armed sc /\
    location (snd (elapse dt q sc)) = location sc.
Proof.
  induction dt as [|n IH]; intros q sc; simpl.
  - exists []. rewrite app_nil_r. simpl. repeat split; lia.
  - destruct (tick1_commits q sc) as (new1 & E1 & L1 & P1).
    destruct (IH (fst (tick1 q sc)) (snd (tick1 q sc))) as (new2 & E2 & L2 & P2).
    exists (new1 ++ new2). rewrite E2, E1, <- app_assoc, length_app.
    repeat split; [lia | congruence].
Qed.

Lemma run_burst_commits ws : forall q sc,
  exists new,
    committed (snd (run_burst ws q sc)) = committed sc ++ new /\
    length new + armed (snd (run_burst ws q sc)) <= armed sc + length ws /\
    location (snd (run_burst ws q sc)) = location sc.
Proof.
  induction ws as [|[[k v] gap] rest IH]; intros q sc; simpl.
  - exists []. rewrite app_nil_r. simpl. repeat split; lia.
  - destruct (elapse_commits gap (obj_set k v (obj_spread [] q))
                (debounce_call sc)) as (new1 & E1 & L1 & P1).
    destruct (IH (fst (elapse gap (obj_set k v (obj_spread [] q))
                         (debounce_call sc)))
                (snd (elapse gap (obj_set k v (obj_spread [] q))
                        (debounce_call sc)))) as (new2 & E2 & L2 & P2).
    exists (new1 ++ new2). rewrite E2, E1, <- app_assoc, length_app.
    simpl in *. unfold armed in L1 at 2. simpl in L1.
    repeat split; [lia | congruence].
Qed.

End CommitCount.

(** X9.  Debouncing never commits more often than it is written to:
    over any sequence of writes through a scope, whatever the time
    between them, and any time after the last, the scope keeps the
    commits it had made, its location is the one it had, and the
    commits added are at most as many as the writes, plus one when a
    call was already pending at the start. *)
Theorem commits_never_exceed_writes (ws : list (string * value * nat))
  (queue : jsobj) (sc : scope) (dt : nat) :
  exists new,
    committed (snd (elapse dt (fst (run_burst ws queue sc))
                      (snd (run_burst ws queue sc))))
    = committed sc ++ new /\
    length new <= armed sc + length ws /\
    location (snd (elapse dt (fst (run_burst ws queue sc))
                     (snd (run_burst ws queue sc))))
    = location sc.
Proof.
  destruct (run_burst_commits ws queue sc) as (new1 & E1 & L1 & P1).
  destruct (elapse_commits dt (fst (run_burst ws queue sc))
              (snd (run_burst ws queue sc))) as (new2 & E2 & L2 & P2).
  exists (new1 ++ new2). rewrite E2, E1, <- app_assoc, length_app.
  repeat split; [lia | congruence].
Qed.

(** X10.  The effect of the TypeScript source is the effect of the
    older JavaScript source guarded by the queue: with an empty queue
    the two do the same, and with a pending queue the TypeScript source
    never sets the state where the older one sets it to the value read
    whenever that differs from the state. *)
Theorem effect_extends_legacy (def : QsStateDefinition) (search : string)
  (queue : jsobj) (b : binding) :
  run_effect def search queue b
  = match queue with
    | [] => Legacy.run_effect def search b
    | _ :: _ => if mounted b then NoUpdate else JustMounted
    end.
Proof.
  unfold run_effect, Legacy.run_effect.
  destruct (mounted b), queue as [|p rest]; reflexivity.
Qed.

(** * Two bindings writing in the same window *)

(** X11.  Two bindings of a scope that write different keys less than
    [COMMIT_DELAY] apart are committed together: [COMMIT_DELAY] after
    the second write the scope has made exactly one more commit, the
    queue is empty, and from the committed location each binding reads
    back what it wrote (for queued entries that are strings, numbers or
    booleans, on the flat fragment). *)
Theorem simultaneous_writes_commit_together
  (d1 d2 : QsStateDefinition) (v1 v2 : value) (b1 b2 : binding)
  (gap : nat) (queue : jsobj) (sc : scope) (s1 s2 : string) :
  wf_obj queue -> key d1 <> key d2 -> gap < COMMIT_DELAY ->
  scalar_text (queued d1 v1) = Some s1 ->
  scalar_text (queued d2 v2) = Some s2 ->
  Qs.accepted_key (key d1) = true -> Qs.accepted_key (key d2) = true ->
  flat_obj (qsObject (location sc)
              (obj_set (key d2) (queued d2 v2)
                 (obj_set (key d1) (queued d1 v1) queue))) = true ->
  length (Qs.stringify_pairs
            (qsObject (location sc)
               (obj_set (key d2) (queued d2 v2)
                  (obj_set (key d1) (queued d1 v1) queue))))
  <= Qs.parameterLimit ->
  two_writes d1 v1 b1 d2 v2 b2 gap COMMIT_DELAY queue sc
  = ([], mkScope (location sc) None
           (committed sc ++
            [Qs.stringify
               (qsObject (location sc)
                  (obj_set (key d2) (queued d2 v2)
                     (obj_set (key d1) (queued d1 v1) queue)))])) /\
  getValueFromURL d1
    (Qs.stringify
       (qsObject (location sc)
          (obj_set (key d2) (queued d2 v2)
             (obj_set (key d1) (queued d1 v1) queue))))
  = read_raw d1 (VStr s1) /\
  getValueFromURL d2
    (Qs.stringify
       (qsObject (location sc)
          (obj_set (key d2) (queued d2 v2)
             (obj_set (key d1) (queued d1 v1) queue))))
  = read_raw d2 (VStr s2).
Proof.
  intros Hwf Hk Hgap Ht1 Ht2 Ha1 Ha2 Hflat Hlen.
  assert (wf_obj (obj_set (key d1) (queued d1 v1) queue)) as Hwf1
      by now apply wf_set.
  assert (wf_obj (obj_set (key d2) (queued d2 v2)
                    (obj_set (key d1) (queued d1 v1) queue))) as Hwf2
      by now apply wf_set.
  split; [|split].
  - unfold two_writes. cbv zeta.
    rewrite (setValue_scope d1), (setValue_queued d1) by assumption.
    rewrite (elapse_before gap _ _ COMMIT_DELAY) by (reflexivity || assumption).
    cbn [fst snd].
    rewrite (setValue_scope d2), (setValue_queued d2) by assumption.
    rewrite (elapse_fire _ _ _ COMMIT_DELAY);
      [reflexivity | reflexivity | unfold COMMIT_DELAY; lia | lia].
  - apply getValueFromURL_read_raw.
    apply (read_back_scalar _ _ (queued d1 v1) s1); try assumption;
      [apply wf_qsObject|].
    rewrite obj_get_qsObject by assumption.
    rewrite obj_get_set_ne by congruence. now rewrite obj_get_set_eq.
  - apply getValueFromURL_read_raw.
    apply (read_back_scalar _ _ (queued d2 v2) s2); try assumption;
      [apply wf_qsObject|].
    rewrite obj_get_qsObject by assumption. now rewrite obj_get_set_eq.
Qed.

Lemma simultaneous_writes_commit_together_witness :
  wf_obj [] /\
  two_writes (mkDef "zoom" VNull None None None) (VNum 7)
    (activate (mkDef "zoom" VNull None None None) "?layer=sat" [])
    (mkDef "center" VNull None None None) (VStr "10,20")
    (activate (mkDef "center" VNull None None None) "?layer=sat" [])
    30 COMMIT_DELAY [] (new_scope "?layer=sat")
  = ([], mkScope "?layer=sat" None ["layer=sat&zoom=7&center=10%2C20"]).
Proof.
  split; [apply wf_nil|].
  refine (proj1 (simultaneous_writes_commit_together
                   (mkDef "zoom" VNull None None None)
                   (mkDef "center" VNull None None None)
                   (VNum 7) (VStr "10,20")
                   (activate (mkDef "zoom" VNull None None None)
                      "?layer=sat" [])
                   (activate (mkDef "center" VNull None None None)
                      "?layer=sat" [])
                   30 [] (new_scope "?layer=sat") "7" "10,20"
                   wf_nil _ _ eq_refl eq_refl eq_refl eq_refl eq_refl _));
    try discriminate.
  - unfold COMMIT_DELAY. lia.
  - simpl. unfold Qs.parameterLimit. lia.
Defined.

(** * The parameters a binding looks at *)

Section OtherParameters.

Lemma collect_filter k parts : forall cur,
  collect k parts cur = collect k (List.filter (named k) parts) cur.
Proof.
  induction parts as [|part rest IH]; intros cur; simpl; [reflexivity|].
  unfold named at 1. destruct (fst (Qs.parse_part part) =? k)%string eqn:E.
  - simpl. rewrite E. apply IH.
  - apply IH.
Qed.

End OtherParameters.

(** X12.  A binding reads only the parameters named by its key: two
    locations of the flat fragment whose parameters of that name are
    the same, in the same order, give the same value, whatever their
    other parameters are and wherever they stand. *)
Theorem other_parameters_do_not_matter (def : QsStateDefinition)
  (s1 s2 : string) :
  flat_search s1 = true -> flat_search s2 = true ->
  List.filter (named (key def)) (parameters s1)
  = List.filter (named (key def)) (parameters s2) ->
  getValueFromURL def s1 = getValueFromURL def s2.
Proof.
  intros _ _ E. unfold getValueFromURL, get.
  rewrite !obj_get_parse, !obj_get_parse_values.
  rewrite (collect_filter _ (parameters s1)), (collect_filter _ (parameters s2)).
  now rewrite E.
Qed.

Lemma other_parameters_do_not_matter_witness :
  flat_search "?page=2&val=cat" = true /\
  getValueFromURL (mkDef "val" VNull None None None) "?page=2&val=cat"
  = getValueFromURL (mkDef "val" VNull None None None) "val=cat&zoom=7&q=a%20b".
Proof.
  split; [reflexivity|].
  apply (other_parameters_do_not_matter (mkDef "val" VNull None None None)
           "?page=2&val=cat" "val=cat&zoom=7&q=a%20b");
    reflexivity.
Defined.

(** * Nothing stays pending *)

Section Liveness.

Implicit Types (q : jsobj) (sc : scope) (scs : list scope) (w : world).

Lemma timer_within_mono d d' sc :
  d <= d' -> timer_within d sc -> timer_within d' sc.
Proof. unfold timer_within. destruct (timer sc); [lia | trivial]. Qed.

Lemma tick1_within d q sc :
  timer_within (S d) sc -> timer_within d (snd (tick1 q sc)).
Proof.
  unfold timer_within, tick1.
  destruct (timer sc) as [[|[|n]]|] eqn:E; simpl; try trivial; try lia.
  now rewrite E.
Qed.

Lemma tick1_all_within d scs : forall q,
  Forall (timer_within (S d)) scs ->
  Forall (timer_within d) (snd (tick1_all q scs)).
Proof.
  induction scs as [|sc rest IH]; intros q Hall; simpl; [constructor|].
  inversion Hall as [|? ? Hsc Hrest]; subst.
  constructor; [now apply tick1_within | now apply IH].
Qed.

Lemma tick1_queue q sc :
  timer_within COMMIT_DELAY sc ->
  fst (tick1 q sc) = [] \/
  (fst (tick1 q sc) = q /\
   (timer sc <> None -> timer (snd (tick1 q sc)) <> None)).
Proof.
  unfold timer_within, tick1.
  destruct (timer sc) as [[|[|n]]|] eqn:E; simpl; intros H.
  - lia.
  - now left.
  - right. split; [reflexivity | discriminate].
  - right. split; [reflexivity | intros C; now contradiction C].
Qed.

(** A unit of time either empties the queue or leaves it as it is, and
    then every pending call is still pending. *)
Lemma tick1_all_queue scs : forall q,
  Forall (timer_within COMMIT_DELAY) scs ->
  fst (tick1_all q scs) = [] \/
  (fst (tick1_all q scs) = q /\
   (Exists (fun sc => timer sc <> None) scs ->
    Exists (fun sc => timer sc <> None) (snd (tick1_all q scs)))).
Proof.
  induction scs as [|sc rest IH]; intros q Hall; simpl.
  - right. split; [reflexivity | trivial].
  - inversion Hall as [|? ? Hsc Hrest]; subst.
    destruct (tick1_queue q sc Hsc) as [H0|[Hq Hp]].
    + rewrite H0. left. destruct (IH [] Hrest) as [H|[H _]]; exact H.
    + rewrite Hq. destruct (IH q Hrest) as [H|[H Hex]]; [now left|].
      right. split; [exact H|]. intros Hex'.
      inversion Hex' as [? ? Hhd|? ? Htl]; subst;
        [left; now apply Hp | right; now apply Hex].
Qed.

Lemma Exists_insert_same {A} (P : A -> Prop) (l : list A) : forall i x y,
  l !! i = Some x -> (P x -> P y) -> Exists P l -> Exists P (<[i:=y]> l).
Proof.
  induction l as [|a rest IH]; intros i x y Hi Hxy Hex; [inversion Hex|].
  destruct i as [|i]; simpl in *.
  - injection Hi as ->. inversion Hex; subst; [left; auto | now right].
  - inversion Hex; subst; [now left | right; eauto].
Qed.

Lemma Exists_insert_new {A} (P : A -> Prop) (l : list A) : forall i x y,
  l !! i = Some x -> P y -> Exists P (<[i:=y]> l).
Proof.
  induction l as [|a rest IH]; intros i x y Hi Hy; [discriminate|].
  destruct i as [|i]; simpl in *; [now left | right; eauto].
Qed.

Lemma Forall_insert_same {A} (P : A -> Prop) (l : list A) : forall i y,
  P y -> Forall P l -> Forall P (<[i:=y]> l).
Proof.
  induction l as [|a rest IH]; intros i y Hy Hall; [constructor|].
  inversion Hall; subst.
  destruct i as [|i]; simpl; constructor; auto.
Qed.

Lemma world_elapse_within dt : forall w,
  Forall (timer_within COMMIT_DELAY) (scopes w) ->
  (commitQueue w <> [] -> Exists (fun sc => timer sc <> None) (scopes w)) ->
  Forall (timer_within COMMIT_DELAY) (scopes (world_elapse dt w)) /\
  (commitQueue (world_elapse dt w) <> [] ->
   Exists (fun sc => timer sc <> None) (scopes (world_elapse dt w))).
Proof.
  induction dt as [|n IH]; intros w Hall Hq; simpl; [now split|].
  apply IH; simpl.
  - apply (Forall_impl (timer_within (pred COMMIT_DELAY))).
    + apply tick1_all_within. exact Hall.
    + intros sc. apply timer_within_mono. unfold COMMIT_DELAY. simpl. lia.
  - intros Hne.
    destruct (tick1_all_queue (scopes w) (commitQueue w) Hall) as [H|[H Hex]];
      [contradiction|].
    apply Hex, Hq. now rewrite <- H.
Qed.

Lemma step_within w w' :
  step w w' ->
  Forall (timer_within COMMIT_DELAY) (scopes w) ->
  (commitQueue w <> [] -> Exists (fun sc => timer sc <> None) (scopes w)) ->
  Forall (timer_within COMMIT_DELAY) (scopes w') /\
  (commitQueue w' <> [] -> Exists (fun sc => timer sc <> None) (scopes w')).
Proof.
  intros Hstep Hall Hq.
  destruct Hstep as [search w|i k v w|i search w|dt w].
  - simpl. split.
    + apply Forall_app. split; [exact Hall|]. constructor; [exact I|constructor].
    + intros Hne. apply Exists_app. left. now apply Hq.
  - unfold on_scope. destruct (scopes w !! i) as [sc|] eqn:Hi; [|now split].
    simpl. split.
    + apply Forall_insert_same; [|exact Hall].
      unfold timer_within. simpl. unfold COMMIT_DELAY. lia.
    + intros _. apply (Exists_insert_new _ _ i sc); [exact Hi | discriminate].
  - unfold on_scope. destruct (scopes w !! i) as [sc|] eqn:Hi; [|now split].
    simpl. split.
    + apply Forall_insert_same; [|exact Hall].
      assert (timer_within COMMIT_DELAY sc) as Hsc.
      { rewrite Forall_forall in Hall. apply Hall.
        now apply (list_elem_of_lookup_2 _ i). }
      exact Hsc.
    + intros Hne. apply (Exists_insert_same _ _ i sc); [exact Hi| |now apply Hq].
      trivial.
  - now apply world_elapse_within.
Qed.

Lemma reachable_within w :
  reachable w ->
  Forall (timer_within COMMIT_DELAY) (scopes w) /\
  (commitQueue w <> [] -> Exists (fun sc => timer sc <> None) (scopes w)).
Proof.
  induction 1 as [|w w' _ [IH1 IH2] Hstep].
  - split; [constructor | intros H; now contradiction H].
  - now apply (step_within w w').
Qed.

Lemma world_elapse_drain d : forall w,
  Forall (timer_within d) (scopes w) -> d <= COMMIT_DELAY ->
  (commitQueue w <> [] -> Exists (fun sc => timer sc <> None) (scopes w)) ->
  quiescent (world_elapse d w).
Proof.
  induction d as [|d IH]; intros w Hall Hd Hq; simpl.
  - assert (Forall (fun sc => timer sc = None) (scopes w)) as Hidle.
    { apply (Forall_impl _ _ _ Hall). intros sc. unfold timer_within.
      destruct (timer sc); [lia | reflexivity]. }
    split; [|exact Hidle].
    destruct (commitQueue w) as [|p rest] eqn:E; [reflexivity|].
    exfalso. assert (p :: rest <> []) as Hne by discriminate.
    apply Hq in Hne. apply Exists_exists in Hne as (sc & Hin & Hp).
    rewrite Forall_forall in Hidle. now apply Hp, Hidle.
  - apply IH; simpl; [now apply tick1_all_within | lia |].
    intros Hne.
    assert (Forall (timer_within COMMIT_DELAY) (scopes w)) as Hall'.
    { apply (Forall_impl _ _ _ Hall). intros sc. now apply timer_within_mono. }
    destruct (tick1_all_queue (scopes w) (commitQueue w) Hall') as [H|[H Hex]];
      [contradiction|].
    apply Hex, Hq. now rewrite <- H.
Qed.

Lemma tick1_all_idle scs : forall q,
  Forall (fun sc => timer sc = None) scs -> tick1_all q scs = (q, scs).
Proof.
  induction scs as [|sc rest IH]; intros q Hall; simpl; [reflexivity|].
  inversion Hall as [|? ? Hsc Hrest]; subst.
  unfold tick1. rewrite Hsc. simpl. now rewrite IH.
Qed.

Lemma world_elapse_quiescent dt : forall w,
  Forall (fun sc => timer sc = None) (scopes w) -> world_elapse dt w = w.
Proof.
  induction dt as [|n IH]; intros w Hall; simpl; [reflexivity|].
  rewrite tick1_all_idle by assumption. simpl.
  rewrite IH by assumption. now destruct w.
Qed.

End Liveness.

(** X13.  No write stays pending: in every state the scopes and their
    bindings can reach, every running timer has between one and
    [COMMIT_DELAY] units left and a queue that is not empty has a
    running timer to flush it; so [COMMIT_DELAY] units without a write
    leave the queue empty and every timer idle, and from then on time
    changes nothing. *)
Theorem pending_writes_are_flushed (w : world) :
  reachable w ->
  Forall (timer_within COMMIT_DELAY) (scopes w) /\
  (commitQueue w <> [] -> Exists (fun sc => timer sc <> None) (scopes w)) /\
  quiescent (world_elapse COMMIT_DELAY w) /\
  (forall dt,
     world_elapse dt (world_elapse COMMIT_DELAY w)
     = world_elapse COMMIT_DELAY w).
Proof.
  intros Hr. destruct (reachable_within w Hr) as [Hall Hq].
  assert (quiescent (world_elapse COMMIT_DELAY w)) as Hquiet
      by now apply world_elapse_drain.
  repeat split; try assumption; try apply Hquiet.
  intros dt. apply world_elapse_quiescent, Hquiet.
Qed.

Lemma pending_writes_are_flushed_witness :
  reachable
    (on_scope 0 (storeInURL "val" (VStr "ferret"))
       (snd (useQsStateCreator "?val=cat" initial_world))) /\
  quiescent
    (world_elapse COMMIT_DELAY
       (on_scope 0 (storeInURL "val" (VStr "ferret"))
          (snd (useQsStateCreator "?val=cat" initial_world)))).
Proof.
  assert (reachable
            (on_scope 0 (storeInURL "val" (VStr "ferret"))
               (snd (useQsStateCreator "?val=cat" initial_world)))) as Hr.
  { eapply reachable_step; [|apply step_store].
    eapply reachable_step; [apply reachable_initial | apply step_create]. }
  split; [exact Hr|].
  exact (proj1 (proj2 (proj2 (pending_writes_are_flushed _ Hr)))).
Defined.

(** * Value equality on data *)

Section DataEquality.

#[local] Arguments String.append !_ _ / : simpl nomatch.

Lemma string_of_Z_inj n n' : string_of_Z n = string_of_Z n' -> n = n'.
Proof.
  unfold string_of_Z. intros E. apply DecimalZ.to_int_inj.
  assert (forall z, Z.to_int z <> Decimal.Pos Decimal.Nil /\
                    Z.to_int z <> Decimal.Neg Decimal.Nil) as Hnn.
  { intros [|q|q]; simpl; split; try discriminate; intros [= H];
      now apply (DecimalPos.Unsigned.to_uint_nonnil q). }
  assert (Some (Z.to_int n) = Some (Z.to_int n')) as [= H]; [|exact H].
  rewrite <- (NilZero.isi (Z.to_int n)), <- (NilZero.isi (Z.to_int n'))
    by apply Hnn.
  now rewrite E.
Qed.

Lemma data_has_text v : is_data v = true -> JSON_stringify v = Some (ser v).
Proof. destruct v; simpl; intros H; try discriminate H; reflexivity. Qed.

Lemma members_data props :
  forallb (fun p => is_data (snd p)) props = true ->
  members props = map (fun p => (fst p, ser (snd p))) props.
Proof.
  induction props as [|[k v] rest IH]; simpl; intros H; [reflexivity|].
  apply andb_true_iff in H as [Hv Hrest].
  unfold members in *. cbn [flat_map fst snd].
  rewrite (data_has_text v Hv), IH by assumption. reflexivity.
Qed.

Lemma items_data_inj items :
  Forall (fun a => is_data a = true ->
                   forall b, is_data b = true -> ser a = ser b ->
                             erase_refs a = erase_refs b) items ->
  forallb is_data items = true ->
  forall items', forallb is_data items' = true ->
    map ser items = map ser items' ->
    map erase_refs items = map erase_refs items'.
Proof.
  induction 1 as [|a t Ha Ht IHt]; intros Hd [|b t'] Hd' E;
    try discriminate E; [reflexivity|].
  simpl in Hd, Hd', E. apply andb_true_iff in Hd as [Hda Hdt].
  apply andb_true_iff in Hd' as [Hdb Hdt']. injection E as Eh Et.
  simpl. f_equal; [now apply Ha | now apply IHt].
Qed.

Lemma props_data_inj (props : list (string * value)) :
  Forall (fun p => is_data (snd p) = true ->
                   forall b, is_data b = true -> ser (snd p) = ser b ->
                             erase_refs (snd p) = erase_refs b) props ->
  forallb (fun p => is_data (snd p)) props = true ->
  forall props' : list (string * value),
    forallb (fun p => is_data (snd p)) props' = true ->
    map (fun p => (fst p, ser (snd p))) props
    = map (fun p => (fst p, ser (snd p))) props' ->
    map (fun p => (fst p, erase_refs (snd p))) props
    = map (fun p => (fst p, erase_refs (snd p))) props'.
Proof.
  induction 1 as [|[k a] t Ha Ht IHt]; intros Hd [|[k' b] t'] Hd' E;
    try discriminate E; [reflexivity|].
  simpl in Hd, Hd', E, Ha. apply andb_true_iff in Hd as [Hda Hdt].
  apply andb_true_iff in Hd' as [Hdb Hdt']. injection E as Ek Eh Et.
  simpl. f_equal; [f_equal; [exact Ek | now apply Ha] | now apply IHt].
Qed.

(** Two data values with the same text are the same, references
    apart. *)
Lemma ser_data_inj a :
  is_data a = true ->
  forall b, is_data b = true -> ser a = ser b -> erase_refs a = erase_refs b.
Proof.
  induction a as [| |x|n|s|r items IH|r props IH|r] using value_ind_nested;
    intros Ha b Hb E; try discriminate Ha;
    pose proof (same_kind _ b "" ""
                  (eq_trans (sapp_nil_r _)
                     (eq_trans E (eq_sym (sapp_nil_r _))))) as Hk;
    destruct b as [| |x'|n'|s'|r' items'|r' props'|r'];
    try discriminate Hb; simpl in Hk; try discriminate Hk.
  - reflexivity.
  - destruct x, x'; try reflexivity; discriminate E.
  - unfold ser in E. simpl in E. now rewrite (string_of_Z_inj n n').
  - unfold ser in E. simpl JSON_stringify in E.
    assert (json_quote s +:+ "" = json_quote s' +:+ "") as E'
        by (now rewrite !sapp_nil_r).
    apply json_quote_tight in E' as [-> _]. reflexivity.
  - unfold ser in E. simpl JSON_stringify in E.
    change (map (fun e => match JSON_stringify e with
                          | Some s => s | None => "null" end))
      with (map ser) in E.
    simpl in E. injection E as E.
    apply items_tight in E as [E _];
      [|apply Forall_forall; intros e _; apply tight_ser].
    simpl. f_equal. simpl in Ha, Hb. now apply items_data_inj.
  - unfold ser in E. simpl JSON_stringify in E.
    rewrite !entries_members in E.
    simpl in E. injection E as E.
    apply members_tight in E as [E _];
      [| apply members_tight_texts, Forall_forall; intros e _; apply tight_ser
       | apply members_are_texts].
    simpl in Ha, Hb. rewrite !members_data in E by assumption.
    simpl. f_equal. now apply props_data_inj.
Qed.

End DataEquality.

(** X14.  On data whose numbers are safe integers, [isEqualObj] is
    equality of content: for two values made of [null], booleans,
    integers of magnitude at most [Number.MAX_SAFE_INTEGER], strings,
    arrays and plain objects (no [undefined], no function, no [NaN], no
    infinity and no fraction anywhere inside), where the same reference
    denotes the same object, [isEqualObj] is true exactly when the two
    have the same structure and the same primitives at the same places,
    property order included, whatever the identities of the objects and
    arrays. *)
Theorem isEqualObj_decides_data_equality (a b : value) :
  is_data a = true -> is_data b = true ->
  (strict_eq a b = true -> a = b) ->
  (isEqualObj a b = true <-> erase_refs a = erase_refs b).
Proof.
  intros Ha Hb Hsame. unfold isEqualObj.
  rewrite (data_has_text a Ha), (data_has_text b Hb).
  destruct (strict_eq a b) eqn:Es.
  - split; [intros _; now rewrite (Hsame eq_refl) | reflexivity].
  - rewrite String.eqb_eq. split.
    + now apply ser_data_inj.
    + intros E. unfold ser.
      now rewrite <- (JSON_stringify_erase_refs a),
                  <- (JSON_stringify_erase_refs b), E.
Qed.

Lemma isEqualObj_decides_data_equality_witness :
  is_data (VObj 1 [("count", VNum 1); ("tags", VArr 2 [VStr "a"; VNull])])
  = true /\
  (isEqualObj
     (VObj 1 [("count", VNum 1); ("tags", VArr 2 [VStr "a"; VNull])])
     (VObj 3 [("count", VNum 1); ("tags", VArr 4 [VStr "a"; VNull])])
   = true
   <-> erase_refs
         (VObj 1 [("count", VNum 1); ("tags", VArr 2 [VStr "a"; VNull])])
       = erase_refs
           (VObj 3 [("count", VNum 1); ("tags", VArr 4 [VStr "a"; VNull])])).
Proof.
  split; [reflexivity|].
  apply (isEqualObj_decides_data_equality
           (VObj 1 [("count", VNum 1); ("tags", VArr 2 [VStr "a"; VNull])])
           (VObj 3 [("count", VNum 1); ("tags", VArr 4 [VStr "a"; VNull])]));
    [reflexivity | reflexivity | discriminate].
Defined.

(** * The location a commit is laid over *)

(** X15.  The commit is laid over the location the scope has when the
    timer expires, not the one it had when the write was made: when the
    host shows a new location between a write and the end of its quiet
    window, the one commit made is the new location overlaid by the
    queue, in which the written entry stands for its key whatever the
    new location holds for it. *)
Theorem commit_overlays_location_at_flush (k : string) (v : value)
  (queue : jsobj) (sc : scope) (gap dt : nat) (search' : string) :
  wf_obj queue -> gap < COMMIT_DELAY -> COMMIT_DELAY <= gap + dt ->
  elapse dt
    (fst (elapse gap (fst (storeInURL k v queue sc))
            (snd (storeInURL k v queue sc))))
    (navigate search'
       (snd (elapse gap (fst (storeInURL k v queue sc))
               (snd (storeInURL k v queue sc)))))
  = ([], mkScope search' None
           (committed sc ++
            [Qs.stringify (qsObject search' (obj_set k v queue))])) /\
  obj_get (qsObject search' (obj_set k v queue)) k = Some v.
Proof.
  intros Hwf Hgap Hdt. split.
  - rewrite storeInURL_queue by assumption.
    change (snd (storeInURL k v queue sc)) with (debounce_call sc).
    rewrite (elapse_before gap _ _ COMMIT_DELAY) by (reflexivity || assumption).
    cbn [fst snd]. unfold navigate. cbn [timer committed].
    rewrite (elapse_fire dt _ _ (COMMIT_DELAY - gap));
      [reflexivity | reflexivity | lia | lia].
  - rewrite obj_get_qsObject by now apply wf_set.
    now rewrite obj_get_set_eq.
Qed.

Lemma commit_overlays_location_at_flush_witness :
  wf_obj [] /\
  elapse 60
    (fst (elapse 40 (fst (storeInURL "val" (VStr "ferret") []
                            (new_scope "?val=cat&page=1")))
            (snd (storeInURL "val" (VStr "ferret") []
                    (new_scope "?val=cat&page=1")))))
    (navigate "?val=dog&page=2"
       (snd (elapse 40 (fst (storeInURL "val" (VStr "ferret") []
                               (new_scope "?val=cat&page=1")))
               (snd (storeInURL "val" (VStr "ferret") []
                       (new_scope "?val=cat&page=1"))))))
  = ([], mkScope "?val=dog&page=2" None ["val=ferret&page=2"]).
Proof.
  split; [apply wf_nil|].
  refine (proj1 (commit_overlays_location_at_flush "val" (VStr "ferret") []
                   (new_scope "?val=cat&page=1") 40 60 "?val=dog&page=2"
                   wf_nil _ _)); unfold COMMIT_DELAY; lia.
Defined.
